(** * yt_views_sum: the view-count parser, the card extractor, the
      scroll-and-collect loop and the summary of [main]

    A shallow embedding of [yt_views_sum.py].

    Conventions.
    - A Python [str] is a list of characters ([str]); a character is an
      [ascii], read as one byte of the UTF-8 encoding of the text.  The
      embedding is exact on ASCII text and on non-ASCII characters that have
      no case mapping and are neither Unicode white space nor Unicode decimal
      digits (the separator U+2022 that the extractor inserts is one).
    - A Python [int] is a [Z].  A Python [float] is an IEEE binary64 value;
      only non-negative ones arise here (the pattern has no sign), see
      [float].
    - A call that may raise returns a [result]: [Ok v] or [Raise e].
    - A [dict] is an association list in insertion order with unique keys,
      which is the order Python iterates it in. *)

From Stdlib Require Import ZArith List Bool Ascii String Lia Arith.
From Stdlib Require Import Permutation.
Import ListNotations.
Open Scope Z_scope.

(** ** Exceptions *)

Inductive exn : Type :=
| OverflowError      (* int() of an infinite float *)
| ValueError         (* float() of a malformed literal *)
| PlaywrightError.   (* a failure of the browser collaborator *)

Inductive result (A : Type) : Type :=
| Ok (a : A)
| Raise (e : exn).
Arguments Ok {A} a.
Arguments Raise {A} e.

Definition bind {A B : Type} (x : result A) (f : A -> result B) : result B :=
  match x with
  | Ok a => f a
  | Raise e => Raise e
  end.

Notation "x <- c ;; k" := (bind c (fun x => k))
  (at level 61, c at next level, right associativity).

(** ** Python strings *)

Definition str : Type := list ascii.

Definition py (s : string) : str := list_ascii_of_string s.

Definition code (c : ascii) : Z := Z.of_nat (nat_of_ascii c).

(** [str.isspace] on one character: TAB, LF, VT, FF, CR, FS, GS, RS, US and
    the space. *)
Definition is_space (c : ascii) : bool :=
  let n := code c in
  ((9 <=? n) && (n <=? 13)) || ((28 <=? n) && (n <=? 32)).

Definition is_digit (c : ascii) : bool :=
  let n := code c in (48 <=? n) && (n <=? 57).

Definition is_upper (c : ascii) : bool :=
  let n := code c in (65 <=? n) && (n <=? 90).

Definition is_lower (c : ascii) : bool :=
  let n := code c in (97 <=? n) && (n <=? 122).

Definition lower_char (c : ascii) : ascii :=
  if is_upper c then ascii_of_nat (nat_of_ascii c + 32) else c.

Definition upper_char (c : ascii) : ascii :=
  if is_lower c then ascii_of_nat (nat_of_ascii c - 32) else c.

(** [s.lower()] *)
Definition str_lower (s : str) : str := map lower_char s.

(** [s.lstrip()], [s.rstrip()] and [s.strip()] *)
Fixpoint str_lstrip (s : str) : str :=
  match s with
  | c :: s' => if is_space c then str_lstrip s' else s
  | [] => []
  end.

Definition str_rstrip (s : str) : str := rev (str_lstrip (rev s)).

Definition str_strip (s : str) : str := str_rstrip (str_lstrip s).

(** [s.replace(c, "")] for a one-character [c] *)
Definition str_remove (c : ascii) (s : str) : str :=
  filter (fun x => negb (Ascii.eqb x c)) s.

(** [sep.join(parts)] *)
Fixpoint str_join (sep : str) (parts : list str) : str :=
  match parts with
  | [] => []
  | [p] => p
  | p :: rest => p ++ sep ++ str_join sep rest
  end.

(** [s.startswith(p)] *)
Fixpoint str_startswith (p s : str) : bool :=
  match p, s with
  | [], _ => true
  | a :: p', b :: s' => Ascii.eqb a b && str_startswith p' s'
  | _ :: _, [] => false
  end.

(** [p in s] *)
Fixpoint str_contains (p s : str) : bool :=
  str_startswith p s ||
  match s with
  | [] => false
  | _ :: s' => str_contains p s'
  end.

Definition str_eqb (a b : str) : bool :=
  if list_eq_dec ascii_dec a b then true else false.

(** ** Regular expressions: the fragment of [re] that [VIEW_RE] uses *)

Inductive regex : Type :=
| Lit (c : ascii)                  (* a literal character *)
| Cls (p : ascii -> bool)          (* a character class *)
| Cat (r1 r2 : regex)              (* r1 r2 *)
| Opt (r : regex)                  (* r?, greedy *)
| Star (r : regex)                 (* r*, greedy *)
| Grp (name : string) (r : regex). (* (?P<name>r) *)

Definition Plus (r : regex) : regex := Cat r (Star r).

Fixpoint Word (w : str) : regex :=
  match w with
  | [] => Opt (Cls (fun _ => false))
  | [c] => Lit c
  | c :: w' => Cat (Lit c) (Word w')
  end.

(** The groups of a match, the last binding of a name first. *)
Definition groups : Type := list (string * str).

Fixpoint group (name : string) (g : groups) : option str :=
  match g with
  | [] => None
  | (n, v) :: g' => if String.eqb n name then Some v else group name g'
  end.

(** Under IGNORECASE a pattern character matches a text character when they
    agree up to case. *)
Definition same_letter (icase : bool) (a b : ascii) : bool :=
  if icase then Ascii.eqb (lower_char a) (lower_char b) else Ascii.eqb a b.

Definition in_class (icase : bool) (p : ascii -> bool) (x : ascii) : bool :=
  if icase then p x || p (lower_char x) || p (upper_char x) else p x.

(** [re_match icase r g s]: every way [r] matches a prefix of [s], in the
    order the backtracking matcher tries them, each with the groups bound so
    far and the text left over.  The head of the list is the match [re]
    reports. *)
Fixpoint re_match (icase : bool) (r : regex) (g : groups) (s : str)
  : list (groups * str) :=
  match r with
  | Lit c =>
      match s with
      | x :: s' => if same_letter icase c x then [(g, s')] else []
      | [] => []
      end
  | Cls p =>
      match s with
      | x :: s' => if in_class icase p x then [(g, s')] else []
      | [] => []
      end
  | Cat r1 r2 =>
      flat_map (fun gs => re_match icase r2 (fst gs) (snd gs))
               (re_match icase r1 g s)
  | Opt r1 => re_match icase r1 g s ++ [(g, s)]
  | Star r1 =>
      (fix star (fuel : nat) (g : groups) (s : str) : list (groups * str) :=
         match fuel with
         | O => [(g, s)]
         | S fuel' =>
             flat_map
               (fun gs =>
                  if (List.length (snd gs) <? List.length s)%nat
                  then star fuel' (fst gs) (snd gs)
                  else [])
               (re_match icase r1 g s)
             ++ [(g, s)]
         end) (List.length s) g s
  | Grp name r1 =>
      map (fun gs =>
             ((name, firstn (List.length s - List.length (snd gs)) s)
                :: fst gs,
              snd gs))
          (re_match icase r1 g s)
  end.

(** [pattern.search(s)]: the match at the leftmost position that has one. *)
Fixpoint re_search (icase : bool) (r : regex) (s : str) : option groups :=
  match re_match icase r [] s with
  | (g, _) :: _ => Some g
  | [] =>
      match s with
      | [] => None
      | _ :: s' => re_search icase r s'
      end
  end.

Definition digit : regex := Cls is_digit.
Definition space : regex := Cls is_space.

Definition kmb (c : ascii) : bool :=
  Ascii.eqb c "k" || Ascii.eqb c "m" || Ascii.eqb c "b".

(** [VIEW_RE], compiled with (?ix). *)
Definition VIEW_RE : regex :=
  Cat (Grp "num" (Cat (Plus digit) (Opt (Cat (Lit ".") (Plus digit)))))
  (Cat (Star space)
  (Cat (Opt (Grp "suffix" (Cls kmb)))
  (Cat (Star space)
       (Word (py "views"))))).

Definition VIEW_RE_search (t : str) : option groups :=
  re_search true VIEW_RE t.

(** ** Python floats (IEEE binary64) *)

(** A non-negative binary64 value: [Finite m e] is [m * 2^e], with
    [0 <= m <= 2^53] and [-1074 <= e]; [Infinity] is [inf]. *)
Inductive float : Type :=
| Finite (m e : Z)
| Infinity.

Definition emin : Z := -1074.
Definition emax : Z := 971.

(** Quotient and remainder of [p / (q * 2^e)], and the divisor used. *)
Definition scaled (p q e : Z) : Z * Z * Z :=
  if 0 <=? e
  then (Z.div_eucl p (q * 2 ^ e), q * 2 ^ e)
  else (Z.div_eucl (p * 2 ^ (- e)) q, q).

(** The exponent of the binade of [p/q]: the [e] with
    [2^52 <= p/q / 2^e < 2^53], but never below [emin] (subnormals). *)
Definition binade (p q : Z) : Z :=
  let e0 := Z.log2 p - Z.log2 q - 52 in
  let e1 := if fst (fst (scaled p q e0)) <? 2 ^ 52 then e0 - 1 else e0 in
  Z.max emin e1.

(** [round_even p q]: the binary64 value nearest to the rational [p/q]
    ([0 <= p], [0 < q]), ties to the even significand, [inf] on overflow. *)
Definition round_even (p q : Z) : float :=
  if p =? 0 then Finite 0 0
  else
    let e := binade p q in
    let '(m, r, d) := scaled p q e in
    let m' := if (d <? 2 * r) || ((d =? 2 * r) && Z.odd m) then m + 1 else m in
    let '(m2, e2) := if m' =? 2 ^ 53 then (2 ^ 52, e + 1) else (m', e) in
    if emax <? e2 then Infinity else Finite m2 e2.

(** [x * k] for a float [x] and an int [k] with [0 < k <= 2^53] (the int is
    converted exactly). *)
Definition float_mul_int (x : float) (k : Z) : float :=
  match x with
  | Infinity => Infinity
  | Finite m e =>
      if 0 <=? e then round_even (m * k * 2 ^ e) 1
      else round_even (m * k) (2 ^ (- e))
  end.

(** [int(x)]: truncation; [int(inf)] raises. *)
Definition int_of_float (x : float) : result Z :=
  match x with
  | Infinity => Raise OverflowError
  | Finite m e => Ok (if 0 <=? e then m * 2 ^ e else m / 2 ^ (- e))
  end.

(** Decimal literals *)

Definition digit_value (c : ascii) : Z := code c - 48.

Fixpoint digits_value (acc : Z) (ds : str) : Z :=
  match ds with
  | [] => acc
  | c :: ds' => digits_value (10 * acc + digit_value c) ds'
  end.

Fixpoint split_at_dot (s : str) : str * option str :=
  match s with
  | [] => ([], None)
  | c :: s' =>
      if Ascii.eqb c "." then ([], Some s')
      else let '(a, b) := split_at_dot s' in (c :: a, b)
  end.

Definition all_digits (s : str) : bool :=
  match s with
  | [] => false
  | _ => forallb is_digit s
  end.

(** The decimal literal [s] as a fraction [(p, q)]: [digits] or
    [digits.digits]. *)
Definition decimal (s : str) : option (Z * Z) :=
  match split_at_dot s with
  | (ip, None) =>
      if all_digits ip then Some (digits_value 0 ip, 1) else None
  | (ip, Some fp) =>
      if all_digits ip && all_digits fp
      then Some (digits_value 0 (ip ++ fp), 10 ^ Z.of_nat (List.length fp))
      else None
  end.

(** [float(s)] on the literals above, correctly rounded; [float] accepts
    more than these (signs, exponents, [inf], [nan], surrounding white
    space), none of which the pattern's [num] group can hold. *)
Definition float_of_str (s : str) : result float :=
  match decimal s with
  | Some (p, q) => Ok (round_even p q)
  | None => Raise ValueError
  end.

(** ** parse_view_count *)

Definition suffix_mult (suffix : str) : Z :=
  if str_eqb suffix (py "k") then 1000
  else if str_eqb suffix (py "m") then 1000000
  else if str_eqb suffix (py "b") then 1000000000
  else 1.

Definition parse_view_count (text : str) : result (option Z) :=
  match text with
  | [] => Ok None
  | _ =>
      let t := str_remove "," (str_lower (str_strip text)) in
      match VIEW_RE_search t with
      | None => Ok None
      | Some m =>
          num <- float_of_str (match group "num" m with
                               | Some s => s
                               | None => []
                               end) ;;
          let suffix := str_lower (match group "suffix" m with
                                   | Some s => s
                                   | None => []
                                   end) in
          let mult := suffix_mult suffix in
          v <- int_of_float (float_mul_int num mult) ;;
          Ok (Some v)
      end
  end.

(** ** Dictionaries *)

Definition dict : Type := list (str * Z).

Fixpoint dict_get (k : str) (d : dict) : option Z :=
  match d with
  | [] => None
  | (k', v) :: d' => if str_eqb k' k then Some v else dict_get k d'
  end.

(** [k in d] *)
Definition dict_contains (k : str) (d : dict) : bool :=
  match dict_get k d with
  | Some _ => true
  | None => false
  end.

(** [d[k] = v]: a present key keeps its place, a new one goes last. *)
Fixpoint dict_set (k : str) (v : Z) (d : dict) : dict :=
  match d with
  | [] => [(k, v)]
  | (k', v') :: d' =>
      if str_eqb k' k then (k', v) :: d' else (k', v') :: dict_set k v d'
  end.

(** [d.setdefault(k, v)] *)
Definition dict_setdefault (k : str) (v : Z) (d : dict) : dict :=
  if dict_contains k d then d else dict_set k v d.

Definition dict_len (d : dict) : Z := Z.of_nat (List.length d).

Definition dict_keys (d : dict) : list str := map fst d.
Definition dict_values (d : dict) : list Z := map snd d.

(** ** extract_video_cards *)

(** What the reads on one [ytd-video-renderer] element yield; [Raise] is a
    read that raised. *)
Record card : Type := {
  href : result (option str);     (* a#video-title, attribute href *)
  meta_spans : result (list str); (* #metadata-line span, inner texts *)
  spans : result (list str)       (* span, inner texts *)
}.

Definition bullet : str := py " • ".
Definition bar : str := py " | ".
Definition origin : str := py "https://www.youtube.com".

Definition nonempty (s : str) : bool :=
  match s with
  | [] => false
  | _ => true
  end.

(** The body of the loop over the cards, for one card. *)
Definition extract_card (results : dict) (c : card) : result dict :=
  let href := match href c with
              | Ok h => h
              | Raise _ => None
              end in
  match href with
  | None => Ok results
  | Some [] => Ok results
  | Some h =>
      let url := if str_startswith (py "/") h then origin ++ h else h in
      if dict_contains url results then Ok results
      else
        let views_text :=
          match meta_spans c with
          | Ok ms =>
              str_join bullet
                (map str_strip (filter (fun t => nonempty (str_strip t)) ms))
          | Raise _ => []
          end in
        vc <- parse_view_count views_text ;;
        let vc :=
          match vc with
          | Some v => Some v
          | None =>
              match spans c with
              | Ok ss =>
                  let candidate :=
                    str_join bar
                      (filter (fun x => str_contains (py "views") (str_lower x))
                              ss) in
                  match parse_view_count candidate with
                  | Ok r => r
                  | Raise _ => None
                  end
              | Raise _ => None
              end
          end in
        match vc with
        | Some v => Ok (dict_set url v results)
        | None => Ok results
        end
  end.

Fixpoint extract_cards (results : dict) (cards : list card) : result dict :=
  match cards with
  | [] => Ok results
  | c :: cards' =>
      results' <- extract_card results c ;;
      extract_cards results' cards'
  end.

(** ** scroll_and_collect *)

(** What the loop does to the outside, in order. *)
Inductive event : Type :=
| EvExtract                                     (* extract_video_cards(page) *)
| EvPrint (n max_scrolls after gained stable stable_rounds : Z)
| EvScroll                                      (* page.evaluate(scrollTo) *)
| EvSleep.                                      (* time.sleep(scroll_pause) *)

(** The merge of one batch into [all_results]. *)
Definition merge (all_results batch : dict) : dict :=
  fold_left (fun d kv => dict_setdefault (fst kv) (snd kv) d) batch all_results.

Section Collect.

(** The browser page and the clock are the collaborator: a state [World],
    the cards it shows, and what a scroll and a sleep do to it.  Each call
    may raise. *)
Variable World : Type.
Variable Pause : Type.
Variable cards_of : World -> result (list card).
Variable scroll_to_bottom : World -> result World.
Variable sleep : Pause -> World -> result World.

Definition extract_video_cards (page : World) : result dict :=
  cards <- cards_of page ;;
  extract_cards [] cards.

Variable max_scrolls : Z.
Variable scroll_pause : Pause.
Variable stable_rounds : Z.

(** The iterations of the [for] loop that remain, [fuel] of them, from
    [n]. *)
Fixpoint rounds (fuel : nat) (n : Z) (all_results : dict) (stable : Z)
  (page : World) : list event * result dict :=
  match fuel with
  | O => ([], Ok all_results)
  | S fuel' =>
      match extract_video_cards page with
      | Raise e => ([EvExtract], Raise e)
      | Ok batch =>
          let before := dict_len all_results in
          let all_results := merge all_results batch in
          let after := dict_len all_results in
          let gained := after - before in
          let stable := if gained =? 0 then stable + 1 else 0 in
          let pr := EvPrint (n + 1) max_scrolls after gained stable
                            stable_rounds in
          if stable_rounds <=? stable
          then ([EvExtract; pr], Ok all_results)
          else
            match scroll_to_bottom page with
            | Raise e => ([EvExtract; pr; EvScroll], Raise e)
            | Ok page1 =>
                match sleep scroll_pause page1 with
                | Raise e => ([EvExtract; pr; EvScroll; EvSleep], Raise e)
                | Ok page2 =>
                    let '(t, o) :=
                      rounds fuel' (n + 1) all_results stable page2 in
                    (EvExtract :: pr :: EvScroll :: EvSleep :: t, o)
                end
            end
      end
  end.

Definition scroll_and_collect (page : World) : list event * result dict :=
  rounds (Z.to_nat max_scrolls) 0 [] 0 page.

End Collect.

(** ** The search URL of [main] *)

(** The characters [quote] never escapes: letters, digits and [_.-~]. *)
Definition always_safe (c : ascii) : bool :=
  is_upper c || is_lower c || is_digit c ||
  Ascii.eqb c "_" || Ascii.eqb c "." || Ascii.eqb c "-" || Ascii.eqb c "~".

Definition hex_digit (n : nat) : ascii :=
  nth n (py "0123456789ABCDEF") "0"%char.

(** One byte as [quote] writes it: itself when safe, else [%XX]. *)
Definition quote_byte (safe : ascii -> bool) (c : ascii) : str :=
  if always_safe c || safe c then [c]
  else ["%"%char; hex_digit (nat_of_ascii c / 16);
        hex_digit (nat_of_ascii c mod 16)].

(** [urllib.parse.quote(s, safe)] on the UTF-8 bytes of [s]. *)
Definition quote (safe : ascii -> bool) (s : str) : str :=
  flat_map (quote_byte safe) s.

Definition is_blank (c : ascii) : bool := Ascii.eqb c " ".

(** [s.replace(a, b)] for one-character [a] and [b]. *)
Definition str_replace_char (a b : ascii) (s : str) : str :=
  map (fun c => if Ascii.eqb c a then b else c) s.

(** [urllib.parse.quote_plus(s)] *)
Definition quote_plus (s : str) : str :=
  if existsb is_blank s
  then str_replace_char " " "+" (quote is_blank s)
  else quote (fun _ => false) s.

(** The URL that [main] opens for the query given on the command line. *)
Definition search_url (query : str) : str :=
  py "https://www.youtube.com/results?search_query="
  ++ quote_plus (str_strip query).

(** ** The summary of [main] *)

(** [sorted(items, key=lambda kv: kv[1], reverse=True)]: a stable sort, the
    larger values first. *)
Fixpoint insert_desc (x : str * Z) (l : list (str * Z)) : list (str * Z) :=
  match l with
  | [] => [x]
  | y :: l' => if snd x <? snd y then y :: insert_desc x l' else x :: l
  end.

Fixpoint sorted_desc (l : list (str * Z)) : list (str * Z) :=
  match l with
  | [] => []
  | x :: l' => insert_desc x (sorted_desc l')
  end.

(** [l[:n]] *)
Definition slice_to {A : Type} (n : Z) (l : list A) : list A :=
  if 0 <=? n then firstn (Z.to_nat n) l
  else firstn (List.length l - Z.to_nat (- n)) l.

Fixpoint sum (l : list Z) : Z :=
  match l with
  | [] => 0
  | x :: l' => x + sum l'
  end.

(** What [main] prints after the collection: the total, the number of
    videos and, unless it is skipped ([None]), the ranked section. *)
Record report : Type := {
  total : Z;
  count : Z;
  top_items : option (list (str * Z))
}.

Definition summary (all_results : dict) (top : Z) : report :=
  {| total := sum (dict_values all_results);
     count := dict_len all_results;
     top_items :=
       if negb (top =? 0) && (0 <? dict_len all_results)
       then Some (slice_to top (sorted_desc all_results))
       else None |}.

(** The ranked entries printed. *)
Definition top_sequence (r : report) : list (str * Z) :=
  match top_items r with
  | Some l => l
  | None => []
  end.

(** * Definitions for the properties *)

(** ** Of the summary *)

(** The entries with view count [v]. *)
Definition has_views (v : Z) (kv : str * Z) : bool := snd kv =? v.

(** [l] starts with [p]. *)
Definition prefix_of {A : Type} (p l : list A) : Prop :=
  exists rest, l = p ++ rest.

(** Every number is at most the ones before it. *)
Fixpoint non_increasing (l : list Z) : Prop :=
  match l with
  | [] => True
  | x :: l' => Forall (fun y => y <= x) l' /\ non_increasing l'
  end.

(** ** Of a trace of the loop *)

Definition is_extract (e : event) : bool :=
  match e with
  | EvExtract => true
  | _ => false
  end.

Definition is_scroll (e : event) : bool :=
  match e with
  | EvScroll => true
  | _ => false
  end.

(** The number of rounds begun and of scroll commands issued. *)
Definition n_rounds (t : list event) : Z :=
  Z.of_nat (List.length (filter is_extract t)).

Definition n_scrolls (t : list event) : Z :=
  Z.of_nat (List.length (filter is_scroll t)).

(** The growth of the result set in each finished round, and the streak
    printed in each. *)
Fixpoint gains (t : list event) : list Z :=
  match t with
  | [] => []
  | EvPrint _ _ _ gained _ _ :: t' => gained :: gains t'
  | _ :: t' => gains t'
  end.

Fixpoint stables (t : list event) : list Z :=
  match t with
  | [] => []
  | EvPrint _ _ _ _ stable _ :: t' => stable :: stables t'
  | _ :: t' => stables t'
  end.

(** The streak of no-growth rounds that ends a sequence of gains: the
    number of zeros at its end. *)
Fixpoint leading_zeros (gs : list Z) : Z :=
  match gs with
  | g :: gs' => if g =? 0 then 1 + leading_zeros gs' else 0
  | [] => 0
  end.

Definition streak (gs : list Z) : Z := leading_zeros (rev gs).

(** The counter of the loop: one step, and its values along the gains. *)
Definition step_stable (stable gained : Z) : Z :=
  if gained =? 0 then stable + 1 else 0.

Fixpoint scan_stable (stable : Z) (gs : list Z) : list Z :=
  match gs with
  | [] => []
  | g :: gs' => step_stable stable g :: scan_stable (step_stable stable g) gs'
  end.

(** What one run of the loop looks like from outside: [fuel] rounds at
    most, started with the result set [all_results] and the counter
    [stable]. *)
Record run_ok (stable_rounds : Z) (fuel : nat) (all_results : dict)
  (stable : Z) (t : list event) (o : result dict) : Prop := {
  ro_rounds : n_rounds t <= Z.of_nat fuel;
  ro_stables : stables t = scan_stable stable (gains t);
  ro_before : Forall (fun s => s < stable_rounds) (removelast (stables t));
  ro_prints : forall final, o = Ok final ->
                Z.of_nat (List.length (gains t)) = n_rounds t;
  ro_early : forall final, o = Ok final ->
               n_rounds t < Z.of_nat fuel ->
               stable_rounds <= last (stables t) (stable_rounds - 1);
  ro_break : stable_rounds <= last (stables t) (stable_rounds - 1) ->
             n_scrolls t = n_rounds t - 1 /\ exists final, o = Ok final;
  ro_exhaust : forall final, o = Ok final ->
               last (stables t) (stable_rounds - 1) < stable_rounds ->
               n_scrolls t = n_rounds t /\ n_rounds t = Z.of_nat fuel;
  ro_size : forall final, o = Ok final ->
              dict_len final = dict_len all_results + sum (gains t);
  ro_stop : forall pre post n mx after gained s th,
              t = pre ++ EvPrint n mx after gained s th :: post ->
              th = stable_rounds /\
              (stable_rounds <= s -> post = [] /\ exists final, o = Ok final)
}.

(** ** A scripted page *)

(** A page that shows the head of a script of card lists; a scroll moves to
    the next list and stays at the last one; a sleep changes nothing. *)
Definition script : Type := list (list card).

Definition script_cards (w : script) : result (list card) := Ok (hd [] w).

Definition script_scroll (w : script) : result script :=
  match w with
  | _ :: (_ :: _) as w' => Ok w'
  | _ => Ok w
  end.

Definition script_sleep {Pause : Type} (_ : Pause) (w : script)
  : result script := Ok w.

Definition video (path views : string) : card :=
  {| href := Ok (Some (py path));
     meta_spans := Ok [py views; py "3 days ago"];
     spans := Ok [py views; py "3 days ago"] |}.

Definition card_a : card := video "/watch?v=a" "1K views".
Definition card_b : card := video "/watch?v=b" "2K views".

(** New URLs in rounds 1 and 2, none afterwards. *)
Definition two_rounds_of_news : script :=
  [[card_a]; [card_a; card_b]; [card_b; card_a]].

Definition collect_script {Pause : Type} (max_scrolls : Z)
  (scroll_pause : Pause) (stable_rounds : Z) (page : script)
  : list event * result dict :=
  scroll_and_collect script Pause script_cards script_scroll script_sleep
    max_scrolls scroll_pause stable_rounds page.

(** ** Of the parser *)

(** The text the pattern is searched in. *)
Definition normalized (text : str) : str :=
  str_remove "," (str_lower (str_strip text)).

(** What the parser does with the normalized text. *)
Definition parse_normalized (t : str) : result (option Z) :=
  match VIEW_RE_search t with
  | None => Ok None
  | Some m =>
      num <- float_of_str (match group "num" m with
                           | Some s => s
                           | None => []
                           end) ;;
      v <- int_of_float
             (float_mul_int num
                (suffix_mult (str_lower (match group "suffix" m with
                                         | Some s => s
                                         | None => []
                                         end)))) ;;
      Ok (Some v)
  end.

Definition all_space (ws : str) : Prop :=
  Forall (fun c => is_space c = true) ws.

(** What may be done to one character. *)
Inductive case_change : Type := Keep | ToUpper | ToLower.

Definition recase_char (k : case_change) (c : ascii) : ascii :=
  match k with
  | Keep => c
  | ToUpper => upper_char c
  | ToLower => lower_char c
  end.

(** [recase ks s]: the characters of [s] with their case changed as [ks]
    says, one change per character; the characters past [ks] are kept. *)
Fixpoint recase (ks : list case_change) (s : str) : str :=
  match ks, s with
  | k :: ks', c :: s' => recase_char k c :: recase ks' s'
  | _, _ => s
  end.

Definition same_up_to_case (s s' : str) : Prop :=
  Forall2 (fun a b => lower_char a = lower_char b) s s'.

(** [x] is the integer [N], held without rounding. *)
Definition holds_integer (x : float) (N : Z) : Prop :=
  exists m e, x = Finite m e /\ e <= 0 /\ m = N * 2 ^ (- e).

(** [matches icase r s]: the regular expression [r] matches the whole of
    [s]. *)
Inductive matches (icase : bool) : regex -> str -> Prop :=
| MLit c x : same_letter icase c x = true -> matches icase (Lit c) [x]
| MCls p x : in_class icase p x = true -> matches icase (Cls p) [x]
| MCat r1 r2 s1 s2 :
    matches icase r1 s1 -> matches icase r2 s2 ->
    matches icase (Cat r1 r2) (s1 ++ s2)
| MOptNone r : matches icase (Opt r) []
| MOptSome r s : matches icase r s -> matches icase (Opt r) s
| MStarNil r : matches icase (Star r) []
| MStarCons r s1 s2 :
    matches icase r s1 -> matches icase (Star r) s2 ->
    matches icase (Star r) (s1 ++ s2)
| MGrp name r s : matches icase r s -> matches icase (Grp name r) s.

(** [binds name r]: [r] has a group called [name]. *)
Fixpoint binds (name : string) (r : regex) : bool :=
  match r with
  | Lit _ | Cls _ => false
  | Cat r1 r2 => binds name r1 || binds name r2
  | Opt r1 | Star r1 => binds name r1
  | Grp n r1 => String.eqb n name || binds name r1
  end.

(** The two parts of [VIEW_RE]: the group [num] and what follows it. *)
Definition num_re : regex :=
  Cat (Plus digit) (Opt (Cat (Lit ".") (Plus digit))).

Definition after_num_re : regex :=
  Cat (Star space)
  (Cat (Opt (Grp "suffix" (Cls kmb)))
  (Cat (Star space)
       (Word (py "views")))).

(** A float that is not negative. *)
Definition float_nonneg (x : float) : Prop :=
  match x with
  | Finite m _ => 0 <= m
  | Infinity => True
  end.

(** A text with a character that is not white space. *)
Definition has_ink (s : str) : Prop := forallb is_space s = false.

(** ** Of the extraction *)

(** The URL a card is recorded under, when its link has a usable [href]. *)
Definition card_url (c : card) : option str :=
  match href c with
  | Ok (Some (a :: h)) =>
      Some (if str_startswith (py "/") (a :: h) then origin ++ a :: h
            else a :: h)
  | _ => None
  end.

(** The text of the metadata line of a card, as the primary source joins
    it. *)
Definition primary_text (c : card) : str :=
  match meta_spans c with
  | Ok ms =>
      str_join bullet
        (map str_strip (filter (fun t => nonempty (str_strip t)) ms))
  | Raise _ => []
  end.

(** What the fallback source gives: failures count as no value. *)
Definition fallback_views (c : card) : option Z :=
  match spans c with
  | Ok ss =>
      match parse_view_count
              (str_join bar
                 (filter (fun x => str_contains (py "views") (str_lower x))
                         ss)) with
      | Ok r => r
      | Raise _ => None
      end
  | Raise _ => None
  end.

(** The view count of a card whose URL is new: the primary source, else the
    fallback. *)
Definition card_views (c : card) : result (option Z) :=
  vc <- parse_view_count (primary_text c) ;;
  Ok (match vc with
      | Some v => Some v
      | None => fallback_views c
      end).

(** The view count of the first card with URL [url] that has one. *)
Fixpoint first_views (url : str) (cards : list card) : option Z :=
  match cards with
  | [] => None
  | c :: cards' =>
      match card_url c with
      | Some u =>
          if str_eqb u url
          then match card_views c with
               | Ok (Some v) => Some v
               | _ => first_views url cards'
               end
          else first_views url cards'
      | None => first_views url cards'
      end
  end.

(** A URL that is not empty and not a path from the root. *)
Definition resolved (url : str) : Prop :=
  url <> [] /\ str_startswith (py "/") url = false.

(** ** More of a trace *)

Definition is_sleep (e : event) : bool :=
  match e with
  | EvSleep => true
  | _ => false
  end.

Definition is_print (e : event) : bool :=
  match e with
  | EvPrint _ _ _ _ _ _ => true
  | _ => false
  end.

Definition n_sleeps (t : list event) : Z :=
  Z.of_nat (List.length (filter is_sleep t)).

(** The progress lines that a sequence of gains gives, from round [n] with
    [size] entries collected and the counter at [stable]. *)
Fixpoint progress_lines (max_scrolls stable_rounds n size stable : Z)
  (gs : list Z) : list event :=
  match gs with
  | [] => []
  | g :: gs' =>
      EvPrint (n + 1) max_scrolls (size + g) g (step_stable stable g)
              stable_rounds
      :: progress_lines max_scrolls stable_rounds (n + 1) (size + g)
           (step_stable stable g) gs'
  end.

(** ** Of the search URL *)

(** The characters of an encoded query: the safe ones, [+] and [%]. *)
Definition url_char (c : ascii) : bool :=
  always_safe c || Ascii.eqb c "+" || Ascii.eqb c "%".

Definition hex_value (c : ascii) : nat :=
  if is_digit c then nat_of_ascii c - 48 else nat_of_ascii c - 55.

(** The decoding of an encoded query: [+] is a space and [%XX] a byte. *)
Fixpoint unquote_plus (s : str) : str :=
  match s with
  | [] => []
  | c :: s1 =>
      if Ascii.eqb c "%" then
        match s1 with
        | h1 :: h2 :: s' =>
            ascii_of_nat (16 * hex_value h1 + hex_value h2) :: unquote_plus s'
        | _ => c :: unquote_plus s1
        end
      else (if Ascii.eqb c "+" then " "%char else c) :: unquote_plus s1
  end.

(** A page with one card, whose metadata line shows a count of 400
    digits. *)
Definition overflowing_page : script :=
  [[{| href := Ok (Some (py "/watch?v=a"));
       meta_spans := Ok [repeat "9"%char 400 ++ py " views"];
       spans := Ok [] |}]].

(** * Properties *)

(** ** The summary *)

Lemma insert_desc_length x l :
  List.length (insert_desc x l) = S (List.length l).
Proof.
  induction l as [|y l IH]; simpl; [reflexivity|].
  destruct (snd x <? snd y); simpl; congruence.
Qed.

Lemma sorted_desc_length l :
  List.length (sorted_desc l) = List.length l.
Proof.
  induction l as [|x l IH]; simpl; [reflexivity|].
  rewrite insert_desc_length; congruence.
Qed.

Lemma insert_desc_values_le x l b :
  snd x <= b -> Forall (fun y => y <= b) (map snd l) ->
  Forall (fun y => y <= b) (map snd (insert_desc x l)).
Proof.
  intros Hx; induction l as [|y l IH]; simpl; intros H.
  - constructor; [exact Hx | constructor].
  - inversion H; subst.
    destruct (snd x <? snd y); simpl.
    + constructor; auto.
    + constructor; [exact Hx | constructor; auto].
Qed.

Lemma insert_desc_sorted x l :
  non_increasing (map snd l) ->
  non_increasing (map snd (insert_desc x l)).
Proof.
  induction l as [|y l IH]; simpl; intros H.
  - split; [constructor | exact I].
  - destruct H as [Hy Hl].
    destruct (snd x <? snd y) eqn:E; simpl.
    + split; [|auto].
      apply insert_desc_values_le; [apply Z.ltb_lt in E; lia | exact Hy].
    + apply Z.ltb_ge in E. split; [|split; assumption].
      constructor; [exact E|].
      eapply Forall_impl; [|exact Hy]. simpl; intros; lia.
Qed.

Lemma sorted_desc_sorted l : non_increasing (map snd (sorted_desc l)).
Proof.
  induction l as [|x l IH]; simpl; [exact I|].
  apply insert_desc_sorted; exact IH.
Qed.

Lemma insert_desc_stable v x l :
  non_increasing (map snd l) ->
  filter (has_views v) (insert_desc x l) = filter (has_views v) (x :: l).
Proof.
  induction l as [|y l IH]; intros H; [reflexivity|].
  destruct H as [Hy Hl]. simpl insert_desc.
  destruct (snd x <? snd y) eqn:E; [|reflexivity].
  apply Z.ltb_lt in E.
  simpl. rewrite (IH Hl). simpl. unfold has_views.
  destruct (snd x =? v) eqn:Ex; destruct (snd y =? v) eqn:Ey;
    try reflexivity.
  apply Z.eqb_eq in Ex, Ey. lia.
Qed.

Lemma sorted_desc_stable v l :
  filter (has_views v) (sorted_desc l) = filter (has_views v) l.
Proof.
  induction l as [|x l IH]; [reflexivity|].
  simpl sorted_desc. rewrite insert_desc_stable by apply sorted_desc_sorted.
  simpl. rewrite IH. reflexivity.
Qed.

Lemma non_increasing_firstn n l :
  non_increasing l -> non_increasing (firstn n l).
Proof.
  revert l; induction n as [|n IH]; intros [|x l]; simpl; auto.
  intros [Hx Hl]. split; [|auto].
  rewrite <- (firstn_skipn n l) in Hx. apply Forall_app in Hx. tauto.
Qed.

Lemma filter_firstn_prefix {A : Type} (f : A -> bool) n l :
  prefix_of (filter f (firstn n l)) (filter f l).
Proof.
  exists (filter f (skipn n l)).
  rewrite <- filter_app, firstn_skipn. reflexivity.
Qed.

Lemma slice_to_firstn {A : Type} (n : Z) (l : list A) :
  exists k, slice_to n l = firstn k l.
Proof.
  unfold slice_to. destruct (0 <=? n); eexists; reflexivity.
Qed.

Lemma slice_to_nonneg {A : Type} (n : Z) (l : list A) :
  0 <= n ->
  slice_to n l = firstn (Z.to_nat (Z.min n (Z.of_nat (List.length l)))) l.
Proof.
  intros Hn. unfold slice_to.
  destruct (0 <=? n) eqn:E; [|apply Z.leb_gt in E; lia].
  destruct (Z.le_gt_cases n (Z.of_nat (List.length l))) as [H|H].
  - rewrite Z.min_l by exact H. reflexivity.
  - rewrite Z.min_r by lia. rewrite Nat2Z.id.
    rewrite firstn_all. apply firstn_all2. lia.
Qed.

Lemma top_sequence_firstn d top :
  exists k, top_sequence (summary d top) = firstn k (sorted_desc d).
Proof.
  unfold top_sequence, summary; simpl.
  destruct (negb (top =? 0) && (0 <? dict_len d)).
  - apply slice_to_firstn.
  - exists O. reflexivity.
Qed.

(** C1, as the summary computes it: for a count [top >= 0] the ranked
    sequence is empty when [top = 0] or nothing was collected, and is
    otherwise the first [min top count] entries of the descending order. *)
Theorem top_sequence_nonneg (all_results : dict) (top : Z) :
  0 <= top ->
  (top = 0 \/ all_results = [] -> top_sequence (summary all_results top) = [])
  /\ (0 < top -> all_results <> [] ->
      top_sequence (summary all_results top) =
      firstn (Z.to_nat (Z.min top (count (summary all_results top))))
             (sorted_desc all_results)).
Proof.
  intros Htop. unfold top_sequence, summary; simpl. split.
  - intros [H|H]; subst; [reflexivity|].
    simpl. rewrite andb_false_r. reflexivity.
  - intros Hpos Hne.
    assert (Hlen : 0 < dict_len all_results).
    { unfold dict_len. destruct all_results; [congruence|simpl; lia]. }
    replace (top =? 0) with false by (symmetry; apply Z.eqb_neq; lia).
    replace (0 <? dict_len all_results) with true
      by (symmetry; apply Z.ltb_lt; exact Hlen).
    simpl. rewrite slice_to_nonneg by exact Htop.
    rewrite sorted_desc_length. reflexivity.
Qed.

Lemma top_sequence_nonneg_witness :
  top_sequence (summary [(py "A", 1000); (py "B", 2000); (py "C", 3000)] 2) =
  [(py "C", 3000); (py "B", 2000)].
Proof.
  pose proof (top_sequence_nonneg
                [(py "A", 1000); (py "B", 2000); (py "C", 3000)] 2
                ltac:(lia)) as [_ H].
  rewrite H; [reflexivity | lia | discriminate].
Defined.

(** C1 fails for a negative [top]: the test [if args.top] lets it through
    and the slice [[:-1]] drops the last entry only. *)
Lemma top_sequence_negative_top :
  -1 <= 0 /\
  top_sequence (summary [(py "A", 1000); (py "B", 2000)] (-1)) =
  [(py "B", 2000)] /\
  top_sequence (summary [(py "A", 1000); (py "B", 2000)] (-1)) <> [].
Proof.
  split; [lia|]. split; [reflexivity | discriminate].
Qed.

(** For a negative [top] the slice keeps all but the last [- top] entries of
    the descending order. *)
Lemma top_sequence_negative (all_results : dict) (top : Z) :
  top < 0 -> all_results <> [] ->
  top_sequence (summary all_results top) =
  firstn (List.length all_results - Z.to_nat (- top)) (sorted_desc all_results).
Proof.
  intros Hneg Hne. unfold top_sequence, summary; simpl.
  replace (top =? 0) with false by (symmetry; apply Z.eqb_neq; lia).
  replace (0 <? dict_len all_results) with true.
  - simpl. unfold slice_to.
    replace (0 <=? top) with false by (symmetry; apply Z.leb_gt; lia).
    rewrite sorted_desc_length. reflexivity.
  - symmetry. apply Z.ltb_lt. unfold dict_len.
    destruct all_results; [congruence | simpl; lia].
Qed.

(** For a positive [top] and a result set that is not empty, the ranked
    sequence is the first [min top count] entries of the descending order. *)
Lemma top_sequence_positive (all_results : dict) (top : Z) :
  0 < top -> all_results <> [] ->
  top_sequence (summary all_results top) =
  firstn (Z.to_nat (Z.min top (count (summary all_results top))))
         (sorted_desc all_results).
Proof.
  intros Hpos Hne. unfold top_sequence, summary; simpl.
  assert (Hlen : 0 < dict_len all_results).
  { unfold dict_len. destruct all_results; [congruence|simpl; lia]. }
  replace (top =? 0) with false by (symmetry; apply Z.eqb_neq; lia).
  replace (0 <? dict_len all_results) with true
    by (symmetry; apply Z.ltb_lt; exact Hlen).
  simpl. rewrite slice_to_nonneg by lia.
  rewrite sorted_desc_length. reflexivity.
Qed.

(** C7: the total is the sum of the stored view counts and the count is the
    number of entries; the ranked sequence has non-increasing view counts
    and, for each view count, lists the entries that have it in insertion
    order; for [0 <= top <= count] it has [top] entries. *)
Theorem summary_report (all_results : dict) (top : Z) :
  total (summary all_results top) = sum (map snd all_results)
  /\ count (summary all_results top) = Z.of_nat (List.length all_results)
  /\ non_increasing (map snd (top_sequence (summary all_results top)))
  /\ (forall v,
        prefix_of
          (filter (has_views v) (top_sequence (summary all_results top)))
          (filter (has_views v) all_results))
  /\ (0 <= top <= count (summary all_results top) ->
      Z.of_nat (List.length (top_sequence (summary all_results top))) = top).
Proof.
  split; [reflexivity|]. split; [reflexivity|].
  destruct (top_sequence_firstn all_results top) as [k Hk].
  split; [|split].
  - rewrite Hk, <- firstn_map.
    apply non_increasing_firstn, sorted_desc_sorted.
  - intros v. rewrite Hk, <- (sorted_desc_stable v all_results).
    apply filter_firstn_prefix.
  - simpl. intros [H0 Hc].
    destruct (Z.eq_dec top 0) as [->|Hnz].
    + reflexivity.
    + destruct all_results as [|kv d].
      * unfold dict_len in Hc; simpl in Hc. lia.
      * rewrite (top_sequence_positive (kv :: d) top);
          [|lia|discriminate].
        rewrite length_firstn, sorted_desc_length. simpl count.
        unfold dict_len in *. lia.
Qed.

Lemma summary_report_witness :
  Z.of_nat (List.length
    (top_sequence
       (summary [(py "A", 1000); (py "B", 2000); (py "C", 2000)] 2))) = 2.
Proof.
  apply (summary_report [(py "A", 1000); (py "B", 2000); (py "C", 2000)] 2).
  unfold summary, dict_len; simpl. lia.
Defined.

(** ** Dictionaries and the two merges *)

Lemma str_eqb_eq a b : str_eqb a b = true <-> a = b.
Proof.
  unfold str_eqb. destruct (list_eq_dec ascii_dec a b); split; congruence.
Qed.

Lemma str_eqb_neq a b : str_eqb a b = false <-> a <> b.
Proof.
  unfold str_eqb. destruct (list_eq_dec ascii_dec a b); split; congruence.
Qed.

Lemma str_eqb_refl a : str_eqb a a = true.
Proof. apply str_eqb_eq. reflexivity. Qed.

Lemma dict_contains_keys k d :
  dict_contains k d = true <-> In k (dict_keys d).
Proof.
  unfold dict_contains.
  induction d as [|[k' v'] d IH]; simpl.
  - split; [discriminate | tauto].
  - destruct (str_eqb k' k) eqn:E.
    + apply str_eqb_eq in E. split; auto.
    + apply str_eqb_neq in E. rewrite IH. split; [auto | intros [H|H]; tauto].
Qed.

Lemma dict_contains_false k d :
  dict_contains k d = false <-> ~ In k (dict_keys d).
Proof.
  rewrite <- dict_contains_keys. destruct (dict_contains k d); split;
    congruence.
Qed.

Lemma dict_set_absent k v d :
  dict_contains k d = false -> dict_set k v d = d ++ [(k, v)].
Proof.
  unfold dict_contains.
  induction d as [|[k' v'] d IH]; simpl; [reflexivity|].
  destruct (str_eqb k' k); [discriminate|].
  intros H. rewrite (IH H). reflexivity.
Qed.

Lemma dict_get_app k d d' :
  dict_get k (d ++ d') =
  match dict_get k d with
  | Some v => Some v
  | None => dict_get k d'
  end.
Proof.
  induction d as [|[k' v'] d IH]; simpl; [reflexivity|].
  destruct (str_eqb k' k); [reflexivity | exact IH].
Qed.

(** A key that is set while absent leaves every present key as it is. *)
Lemma dict_set_absent_keeps k v d k0 v0 :
  dict_contains k d = false ->
  dict_get k0 d = Some v0 -> dict_get k0 (dict_set k v d) = Some v0.
Proof.
  intros Habs Hget. rewrite (dict_set_absent _ _ _ Habs), dict_get_app, Hget.
  reflexivity.
Qed.

Lemma dict_setdefault_keeps k v d k0 v0 :
  dict_get k0 d = Some v0 -> dict_get k0 (dict_setdefault k v d) = Some v0.
Proof.
  intros Hget. unfold dict_setdefault.
  destruct (dict_contains k d) eqn:E; [exact Hget|].
  apply dict_set_absent_keeps; assumption.
Qed.

Lemma merge_keeps all_results batch k0 v0 :
  dict_get k0 all_results = Some v0 ->
  dict_get k0 (merge all_results batch) = Some v0.
Proof.
  unfold merge. revert all_results.
  induction batch as [|[k v] batch IH]; simpl; intros d H; [exact H|].
  apply IH, dict_setdefault_keeps, H.
Qed.

Lemma extract_card_keeps results c results' k0 v0 :
  extract_card results c = Ok results' ->
  dict_get k0 results = Some v0 -> dict_get k0 results' = Some v0.
Proof.
  unfold extract_card. intros H Hget.
  destruct (match href c with Ok h => h | Raise _ => None end) as [[|a h]|];
    try (injection H as <-; exact Hget).
  set (url := if str_startswith (py "/") (a :: h) then origin ++ a :: h
              else a :: h) in *.
  destruct (dict_contains url results) eqn:E;
    [injection H as <-; exact Hget|].
  destruct (parse_view_count _) as [vc|e]; simpl in H; [|discriminate].
  match type of H with
  | match ?x with Some _ => _ | None => _ end = _ => destruct x as [v|]
  end; injection H as <-; [|exact Hget].
  apply dict_set_absent_keeps; assumption.
Qed.

Lemma extract_cards_keeps cards results results' k0 v0 :
  extract_cards results cards = Ok results' ->
  dict_get k0 results = Some v0 -> dict_get k0 results' = Some v0.
Proof.
  revert results. induction cards as [|c cards IH]; simpl; intros d H Hget.
  - injection H as <-; exact Hget.
  - destruct (extract_card d c) as [d1|e] eqn:E; simpl in H; [|discriminate].
    eapply IH; [exact H|]. eapply extract_card_keeps; eassumption.
Qed.

Lemma rounds_keeps (World Pause : Type)
  (cards_of : World -> result (list card))
  (scroll_to_bottom : World -> result World)
  (sleep : Pause -> World -> result World)
  (max_scrolls : Z) (scroll_pause : Pause) (stable_rounds : Z)
  fuel n all_results stable page final k0 v0 :
  snd (rounds World Pause cards_of scroll_to_bottom sleep max_scrolls
         scroll_pause stable_rounds fuel n all_results stable page)
  = Ok final ->
  dict_get k0 all_results = Some v0 -> dict_get k0 final = Some v0.
Proof.
  revert n all_results stable page.
  induction fuel as [|fuel IH]; simpl; intros n d st w H Hget.
  - injection H as <-; exact Hget.
  - destruct (extract_video_cards World cards_of w) as [batch|e];
      [|discriminate].
    pose proof (merge_keeps d batch k0 v0 Hget) as Hm.
    destruct (stable_rounds <=? _); [injection H as <-; exact Hm|].
    destruct (scroll_to_bottom w) as [w1|e]; [|discriminate].
    destruct (sleep scroll_pause w1) as [w2|e]; [|discriminate].
    destruct (rounds _ _ _ _ _ _ _ _ fuel _ _ _ w2) as [t o] eqn:E.
    simpl in H. eapply IH; [rewrite E; exact H | exact Hm].
Qed.

(** C4: once a URL has an entry, no later observation of it changes the
    stored view count: not a later card of the same extraction pass, not the
    merge of a later batch, not the rest of the collection; and the merge of
    a URL twice keeps the first of any two values. *)
Theorem first_seen_wins (url : str) (views : Z) (results : dict) :
  dict_get url results = Some views ->
  (forall cards results',
      extract_cards results cards = Ok results' ->
      dict_get url results' = Some views)
  /\ (forall batch, dict_get url (merge results batch) = Some views)
  /\ (forall later, dict_get url (dict_setdefault url later results)
                    = Some views)
  /\ (forall (World Pause : Type) cards_of scroll_to_bottom sleep
             max_scrolls scroll_pause stable_rounds fuel n stable page final,
        snd (rounds World Pause cards_of scroll_to_bottom sleep max_scrolls
               scroll_pause stable_rounds fuel n results stable page)
        = Ok final ->
        dict_get url final = Some views)
  /\ (forall v1 v2,
        merge (merge [] [(url, v1)]) [(url, v2)] = [(url, v1)]).
Proof.
  intros Hget. repeat split.
  - intros cards results' H. eapply extract_cards_keeps; eassumption.
  - intros batch. apply merge_keeps, Hget.
  - intros later. apply dict_setdefault_keeps, Hget.
  - intros. eapply rounds_keeps; eassumption.
  - intros v1 v2. unfold merge, dict_setdefault, dict_contains. simpl.
    rewrite str_eqb_refl. reflexivity.
Qed.

Lemma first_seen_wins_witness :
  dict_get (py "/watch?v=a")
    (merge [(py "/watch?v=a", 1000)] [(py "/watch?v=a", 5)]) = Some 1000.
Proof.
  apply (first_seen_wins (py "/watch?v=a") 1000 [(py "/watch?v=a", 1000)]).
  reflexivity.
Defined.

(** ** The collection loop *)

(** *** Reading a trace *)

Lemma leading_zeros_app_nonzero gs g gs' :
  g <> 0 -> leading_zeros (gs ++ g :: gs') = leading_zeros gs.
Proof.
  intros Hg. induction gs as [|x gs IH]; simpl.
  - destruct (g =? 0) eqn:E; [apply Z.eqb_eq in E; contradiction|reflexivity].
  - rewrite IH. reflexivity.
Qed.

Lemma leading_zeros_all_zero gs :
  Forall (fun g => g = 0) gs ->
  leading_zeros gs = Z.of_nat (List.length gs).
Proof.
  induction 1 as [|g gs Hg _ IH]; [reflexivity|].
  subst g. cbn [leading_zeros List.length]. rewrite IH, Z.eqb_refl. lia.
Qed.

Lemma streak_snoc gs g :
  streak (gs ++ [g]) = step_stable (streak gs) g.
Proof.
  unfold streak, step_stable. rewrite rev_app_distr.
  cbn [rev app leading_zeros]. destruct (g =? 0); lia.
Qed.

(** The counter started at 0 holds the streak after every round. *)
Lemma scan_stable_streak gs0 gs :
  scan_stable (streak gs0) gs =
  map (fun k => streak (gs0 ++ firstn (S k) gs)) (seq 0 (List.length gs)).
Proof.
  revert gs0. induction gs as [|g gs IH]; intros gs0; [reflexivity|].
  cbn [scan_stable List.length seq map firstn].
  rewrite <- streak_snoc. f_equal.
  rewrite IH, <- seq_shift, map_map.
  apply map_ext. intros k. rewrite <- app_assoc. reflexivity.
Qed.

Lemma streak_nil : streak [] = 0.
Proof. reflexivity. Qed.

Lemma nth_scan_stable gs k :
  (k < List.length gs)%nat ->
  nth k (scan_stable 0 gs) 0 = streak (firstn (S k) gs).
Proof.
  intros Hk. rewrite <- streak_nil at 1. rewrite scan_stable_streak.
  rewrite (nth_indep _ 0 (streak ([] ++ firstn (S 0) gs)))
    by (rewrite length_map, length_seq; exact Hk).
  rewrite (map_nth (fun k => streak ([] ++ firstn (S k) gs))).
  rewrite seq_nth by exact Hk. reflexivity.
Qed.

(** *** Invariants of the loop *)

Section CollectProps.

Variable World : Type.
Variable Pause : Type.
Variable cards_of : World -> result (list card).
Variable scroll_to_bottom : World -> result World.
Variable sleep : Pause -> World -> result World.
Variable max_scrolls : Z.
Variable scroll_pause : Pause.
Variable stable_rounds : Z.

Let extract := extract_video_cards World cards_of.
Let loop := rounds World Pause cards_of scroll_to_bottom sleep max_scrolls
              scroll_pause stable_rounds.
Let collect := scroll_and_collect World Pause cards_of scroll_to_bottom
                 sleep max_scrolls scroll_pause stable_rounds.

Lemma rounds_S fuel n all_results stable page :
  loop (S fuel) n all_results stable page =
  match extract page with
  | Raise e => ([EvExtract], Raise e)
  | Ok batch =>
      let merged := merge all_results batch in
      let gained := dict_len merged - dict_len all_results in
      let stable' := step_stable stable gained in
      let pr := EvPrint (n + 1) max_scrolls (dict_len merged) gained stable'
                        stable_rounds in
      if stable_rounds <=? stable'
      then ([EvExtract; pr], Ok merged)
      else
        match scroll_to_bottom page with
        | Raise e => ([EvExtract; pr; EvScroll], Raise e)
        | Ok page1 =>
            match sleep scroll_pause page1 with
            | Raise e => ([EvExtract; pr; EvScroll; EvSleep], Raise e)
            | Ok page2 =>
                (EvExtract :: pr :: EvScroll :: EvSleep
                   :: fst (loop fuel (n + 1) merged stable' page2),
                 snd (loop fuel (n + 1) merged stable' page2))
            end
        end
  end.
Proof.
  unfold loop, extract. simpl.
  destruct (extract_video_cards World cards_of page); [|reflexivity].
  unfold step_stable.
  destruct (stable_rounds <=? _); [reflexivity|].
  destruct (scroll_to_bottom page); [|reflexivity].
  destruct (sleep scroll_pause _); [|reflexivity].
  destruct (rounds _ _ _ _ _ _ _ _ fuel _ _ _ _). reflexivity.
Qed.

(** A trace that stops short of its first print. *)
Lemma run_ok_raise_extract fuel d st e :
  run_ok stable_rounds (S fuel) d st [EvExtract] (Raise e).
Proof.
  constructor; simpl; try (intros; discriminate).
  - unfold n_rounds; simpl. lia.
  - reflexivity.
  - constructor.
  - lia.
  - intros [|x [|y pre]] post n mx a g s th H; discriminate.
Qed.

Lemma loop_run_ok fuel :
  forall n all_results stable page,
    run_ok stable_rounds fuel all_results stable
      (fst (loop fuel n all_results stable page))
      (snd (loop fuel n all_results stable page)).
Proof.
  induction fuel as [|fuel IH]; intros n d st w.
  - unfold loop; simpl. constructor; simpl; try lia.
    + unfold n_rounds; simpl; lia.
    + reflexivity.
    + constructor.
    + reflexivity.
    + intros final _ H. unfold n_rounds in H; simpl in H. lia.
    + intros final _ _. split; reflexivity.
    + intros final [= <-]. lia.
    + intros pre post *. intros H. destruct pre; discriminate.
  - rewrite rounds_S.
    destruct (extract w) as [batch|e]; [|apply run_ok_raise_extract].
    cbv zeta.
    set (merged := merge d batch).
    set (g := dict_len merged - dict_len d).
    set (s := step_stable st g).
    destruct (stable_rounds <=? s) eqn:Hs.
    { apply Z.leb_le in Hs. simpl fst; simpl snd.
      constructor; simpl.
      - unfold n_rounds; simpl; lia.
      - reflexivity.
      - constructor.
      - reflexivity.
      - intros; exact Hs.
      - intros _. split; [reflexivity | eexists; reflexivity].
      - intros; lia.
      - intros final [= <-]. unfold g. lia.
      - intros [|x [|y pre]] post n' mx a g' s' th H; try discriminate.
        + simpl in H. inversion H; subst.
          split; [reflexivity|]. intros _. split; [reflexivity|].
          eexists; reflexivity.
        + simpl in H. inversion H. destruct pre; discriminate. }
    apply Z.leb_gt in Hs.
    destruct (scroll_to_bottom w) as [w1|e].
    2:{ simpl fst; simpl snd. constructor; simpl; try (intros; discriminate).
        - unfold n_rounds; simpl; lia.
        - reflexivity.
        - constructor.
        - lia.
        - intros [|x [|y [|z pre]]] post n' mx a g' s' th H;
            try discriminate.
          + simpl in H. inversion H; subst.
            split; [reflexivity|]. lia.
          + simpl in H. inversion H. destruct pre; discriminate. }
    destruct (sleep scroll_pause w1) as [w2|e].
    2:{ simpl fst; simpl snd. constructor; simpl; try (intros; discriminate).
        - unfold n_rounds; simpl; lia.
        - reflexivity.
        - constructor.
        - lia.
        - intros [|x [|y [|z [|z' pre]]]] post n' mx a g' s' th H;
            try discriminate.
          + simpl in H. inversion H; subst.
            split; [reflexivity|]. lia.
          + simpl in H. inversion H. destruct pre; discriminate. }
    specialize (IH (n + 1) merged s w2).
    destruct (loop fuel (n + 1) merged s w2) as [t o].
    simpl fst in *; simpl snd in *.
    destruct IH as [R St Bf Pr Ea Br Ex Sz Sp].
    assert (Hlast : last (s :: stables t) (stable_rounds - 1) =
                    match stables t with
                    | [] => s
                    | _ => last (stables t) (stable_rounds - 1)
                    end).
    { simpl. destruct (stables t); reflexivity. }
    assert (Hnr : n_rounds (EvExtract :: EvPrint (n + 1) max_scrolls
                              (dict_len merged) g s stable_rounds
                              :: EvScroll :: EvSleep :: t)
                  = 1 + n_rounds t).
    { unfold n_rounds. simpl filter. simpl List.length. lia. }
    assert (Hns : n_scrolls (EvExtract :: EvPrint (n + 1) max_scrolls
                              (dict_len merged) g s stable_rounds
                              :: EvScroll :: EvSleep :: t)
                  = 1 + n_scrolls t).
    { unfold n_scrolls. simpl filter. simpl List.length. lia. }
    constructor; cbn [gains stables scan_stable]; fold s.
    + rewrite Hnr. lia.
    + f_equal. exact St.
    + simpl. destruct (stables t) eqn:Et; [constructor|].
      constructor; [exact Hs | exact Bf].
    + intros final Ho. rewrite Hnr. simpl List.length.
      specialize (Pr final Ho). lia.
    + intros final Ho Hlt. rewrite Hnr in Hlt. rewrite Hlast.
      destruct (stables t) eqn:Et.
      * exfalso. specialize (Ea final Ho ltac:(lia)). simpl in Ea. lia.
      * apply (Ea final Ho). lia.
    + rewrite Hlast, Hnr, Hns. destruct (stables t) eqn:Et; [lia|].
      intros H. destruct (Br H) as [H1 H2]. split; [lia | exact H2].
    + intros final Ho. rewrite Hlast, Hnr, Hns.
      destruct (stables t) eqn:Et.
      * intros _. destruct (Ex final Ho) as [H1 H2]; [simpl; lia|].
        split; lia.
      * intros H. destruct (Ex final Ho H) as [H1 H2]. split; lia.
    + intros final Ho. rewrite (Sz final Ho). simpl sum. unfold g. lia.
    + intros [|x [|y [|z [|z' pre]]]] post n' mx a g' s' th H;
        try discriminate.
      * simpl in H. inversion H; subst.
        split; [reflexivity|]. lia.
      * simpl in H. inversion H. eapply Sp. eassumption.
Qed.

End CollectProps.

(** *** Batches have unique keys *)

Lemma NoDup_snoc {A : Type} (l : list A) (x : A) :
  NoDup l -> ~ In x l -> NoDup (l ++ [x]).
Proof.
  intros Hl Hx. induction Hl as [|y l Hy Hl IH]; simpl.
  - constructor; [tauto | constructor].
  - constructor.
    + rewrite in_app_iff. simpl. intros [H|[H|[]]]; [tauto|].
      subst. apply Hx. left; reflexivity.
    + apply IH. intros H. apply Hx. right; exact H.
Qed.

Lemma dict_set_absent_nodup k v d :
  dict_contains k d = false ->
  NoDup (dict_keys d) -> NoDup (dict_keys (dict_set k v d)).
Proof.
  intros Habs Hd. rewrite (dict_set_absent _ _ _ Habs).
  unfold dict_keys. rewrite map_app. simpl.
  apply NoDup_snoc; [exact Hd | apply dict_contains_false, Habs].
Qed.

Lemma extract_card_nodup results c results' :
  extract_card results c = Ok results' ->
  NoDup (dict_keys results) -> NoDup (dict_keys results').
Proof.
  unfold extract_card. intros H Hnd.
  destruct (match href c with Ok h => h | Raise _ => None end) as [[|a h]|];
    try (injection H as <-; exact Hnd).
  set (url := if str_startswith (py "/") (a :: h) then origin ++ a :: h
              else a :: h) in *.
  destruct (dict_contains url results) eqn:E;
    [injection H as <-; exact Hnd|].
  destruct (parse_view_count _) as [vc|e]; simpl in H; [|discriminate].
  match type of H with
  | match ?x with Some _ => _ | None => _ end = _ => destruct x as [v|]
  end; injection H as <-; [|exact Hnd].
  apply dict_set_absent_nodup; assumption.
Qed.

Lemma extract_cards_nodup cards results results' :
  extract_cards results cards = Ok results' ->
  NoDup (dict_keys results) -> NoDup (dict_keys results').
Proof.
  revert results. induction cards as [|c cards IH]; simpl; intros d H Hnd.
  - injection H as <-; exact Hnd.
  - destruct (extract_card d c) as [d1|e] eqn:E; simpl in H; [|discriminate].
    eapply IH; [exact H|]. eapply extract_card_nodup; eassumption.
Qed.

Lemma extract_video_cards_nodup (World : Type)
  (cards_of : World -> result (list card)) page batch :
  extract_video_cards World cards_of page = Ok batch ->
  NoDup (dict_keys batch).
Proof.
  unfold extract_video_cards. destruct (cards_of page) as [cards|e]; simpl;
    [|discriminate].
  intros H. eapply extract_cards_nodup; [exact H | constructor].
Qed.

Lemma merge_disjoint batch :
  forall d, NoDup (dict_keys d ++ dict_keys batch) ->
            merge d batch = d ++ batch.
Proof.
  unfold merge.
  induction batch as [|[k v] batch IH]; intros d Hnd; simpl.
  - rewrite app_nil_r. reflexivity.
  - assert (Habs : dict_contains k d = false).
    { apply dict_contains_false. intros Hin.
      simpl in Hnd. apply NoDup_remove_2 in Hnd.
      apply Hnd, in_or_app. left; exact Hin. }
    unfold dict_setdefault. rewrite Habs, (dict_set_absent _ _ _ Habs).
    rewrite IH.
    + rewrite <- app_assoc. reflexivity.
    + unfold dict_keys in *. rewrite map_app, <- app_assoc. exact Hnd.
Qed.

Lemma merge_into_empty batch :
  NoDup (dict_keys batch) -> merge [] batch = batch.
Proof. intros H. apply (merge_disjoint batch []). exact H. Qed.

(** *** Reading a trace in two parts *)

Lemma gains_app t1 t2 : gains (t1 ++ t2) = gains t1 ++ gains t2.
Proof.
  induction t1 as [|e t1 IH]; [reflexivity|].
  destruct e; simpl; rewrite IH; reflexivity.
Qed.

Lemma stables_app t1 t2 : stables (t1 ++ t2) = stables t1 ++ stables t2.
Proof.
  induction t1 as [|e t1 IH]; [reflexivity|].
  destruct e; simpl; rewrite IH; reflexivity.
Qed.

Lemma stables_length t : List.length (stables t) = List.length (gains t).
Proof.
  induction t as [|e t IH]; [reflexivity|].
  destruct e; simpl; rewrite ?IH; reflexivity.
Qed.

Lemma scan_stable_length st gs :
  List.length (scan_stable st gs) = List.length gs.
Proof.
  revert st. induction gs as [|g gs IH]; intros st; simpl;
    [reflexivity | rewrite IH; reflexivity].
Qed.

Lemma removelast_nth {A : Type} (P : A -> Prop) (l : list A) (d : A) i :
  Forall P (removelast l) -> (S i < List.length l)%nat -> P (nth i l d).
Proof.
  revert i. induction l as [|x l IH]; intros i H Hi; simpl in Hi; [lia|].
  destruct l as [|y l]; [simpl in Hi; lia|].
  change (removelast (x :: y :: l)) with (x :: removelast (y :: l)) in H.
  inversion H; subst.
  destruct i as [|i]; [assumption|].
  change (nth (S i) (x :: y :: l) d) with (nth i (y :: l) d).
  apply IH; [assumption | simpl in *; lia].
Qed.

Lemma last_nth {A : Type} (l : list A) (d d' : A) :
  l <> [] -> last l d = nth (List.length l - 1) l d'.
Proof.
  induction l as [|x l IH]; [congruence|]. intros _.
  destruct l as [|y l]; [reflexivity|].
  change (last (x :: y :: l) d) with (last (y :: l) d).
  rewrite IH by discriminate. simpl. rewrite Nat.sub_0_r. reflexivity.
Qed.

(** The last value of the counter is the streak of all the gains. *)
Lemma last_scan_stable gs d :
  gs <> [] -> last (scan_stable 0 gs) d = streak gs.
Proof.
  intros Hne.
  assert (Hlen : (0 < List.length gs)%nat)
    by (destruct gs; [congruence | simpl; lia]).
  rewrite (last_nth _ d 0).
  - rewrite scan_stable_length, nth_scan_stable by lia.
    replace (S (List.length gs - 1)) with (List.length gs) by lia.
    rewrite firstn_all. reflexivity.
  - intros H. apply (f_equal (@List.length Z)) in H.
    rewrite scan_stable_length in H. simpl in H. lia.
Qed.

(** *** The claims on the loop *)

Section CollectClaims.

Variable World : Type.
Variable Pause : Type.
Variable cards_of : World -> result (list card).
Variable scroll_to_bottom : World -> result World.
Variable sleep : Pause -> World -> result World.
Variable max_scrolls : Z.
Variable scroll_pause : Pause.
Variable stable_rounds : Z.

Let extract := extract_video_cards World cards_of.
Let collect := scroll_and_collect World Pause cards_of scroll_to_bottom
                 sleep max_scrolls scroll_pause stable_rounds.

Lemma collect_run_ok page :
  run_ok stable_rounds (Z.to_nat max_scrolls) [] 0
    (fst (collect page)) (snd (collect page)).
Proof. apply loop_run_ok. Qed.

(** The rounds, the counter and the stop of a run. *)
Lemma collect_rounds page :
  let t := fst (collect page) in
  let o := snd (collect page) in
  n_rounds t <= Z.max 0 max_scrolls
  /\ stables t =
     map (fun k => streak (firstn (S k) (gains t)))
         (seq 0 (List.length (gains t)))
  /\ (forall final, o = Ok final ->
        (n_rounds t < max_scrolls -> stable_rounds <= streak (gains t))
        /\ (forall k, (0 < k)%nat -> Z.of_nat k < n_rounds t ->
                      streak (firstn k (gains t)) < stable_rounds)
        /\ (0 < n_rounds t ->
            (stable_rounds <= streak (gains t) <->
             n_scrolls t < n_rounds t))).
Proof.
  intros t o.
  destruct (collect_run_ok page) as [R St Bf Pr Ea Br Ex Sz Sp].
  fold t in R, St, Bf, Pr, Ea, Br, Ex, Sz, Sp. fold o in Pr, Ea, Br, Ex, Sz, Sp.
  split; [lia|]. split.
  { rewrite St. rewrite <- streak_nil at 1.
    rewrite scan_stable_streak. reflexivity. }
  intros final Ho. specialize (Pr final Ho).
  assert (Hlast : gains t <> [] ->
                  last (stables t) (stable_rounds - 1) = streak (gains t)).
  { intros Hne. rewrite St. apply last_scan_stable, Hne. }
  split; [|split].
  - intros Hlt. specialize (Ea final Ho ltac:(lia)).
    destruct (gains t) eqn:Eg.
    + rewrite St in Ea. simpl in Ea. lia.
    + rewrite <- Hlast by discriminate. exact Ea.
  - intros k Hk Hkn.
    destruct k as [|k]; [lia|].
    rewrite <- nth_scan_stable by lia. rewrite <- St.
    apply (removelast_nth (fun s => s < stable_rounds)); [exact Bf|].
    rewrite stables_length. lia.
  - intros Hpos.
    assert (Hne : gains t <> []).
    { intros E. rewrite E in Pr. simpl in Pr. lia. }
    rewrite <- (Hlast Hne). split.
    + intros H. destruct (Br H) as [H1 _]. lia.
    + intros H.
      destruct (Z.le_gt_cases stable_rounds
                  (last (stables t) (stable_rounds - 1))) as [Hc|Hc];
        [exact Hc|].
      destruct (Ex final Ho ltac:(lia)) as [H1 _]. lia.
Qed.

(** C8: a round whose streak has reached [stable_rounds] is the last
    thing the loop does: nothing follows its progress line, so no scroll
    command does, and the loop returns.  The streak printed is the number
    of no-growth rounds in a row up to that round. *)
Theorem collect_converged page pre post n mx after gained s th :
  fst (collect page) = pre ++ EvPrint n mx after gained s th :: post ->
  s = streak (gains pre ++ [gained])
  /\ th = stable_rounds
  /\ (stable_rounds <= s ->
      post = [] /\ n_scrolls post = 0
      /\ exists final, snd (collect page) = Ok final).
Proof.
  intros Ht.
  destruct (collect_run_ok page) as [R St Bf Pr Ea Br Ex Sz Sp].
  rewrite Ht in St. destruct (Sp _ _ _ _ _ _ _ _ Ht) as [Hth Hstop].
  split; [|split; [exact Hth|]].
  - rewrite stables_app, gains_app in St. cbn [stables gains] in St.
    apply (f_equal (fun l => nth (List.length (gains pre)) l 0)) in St.
    rewrite app_nth2 in St by (rewrite stables_length; lia).
    rewrite stables_length, Nat.sub_diag in St. simpl nth at 1 in St.
    rewrite nth_scan_stable in St
      by (rewrite length_app; simpl; lia).
    rewrite St.
    replace (S (List.length (gains pre)))
      with (List.length (gains pre) + 1)%nat by lia.
    rewrite firstn_app_2. reflexivity.
  - intros Hs. destruct (Hstop Hs) as [-> Hok].
    split; [reflexivity|]. split; [reflexivity | exact Hok].
Qed.

(** C9: with [stable_rounds <= 0] and [max_scrolls >= 1] the loop runs one
    extraction, issues no scroll and returns what that extraction returned
    (or raises what it raised), also when the round gained entries. *)
Theorem collect_threshold_nonpositive page :
  stable_rounds <= 0 -> 1 <= max_scrolls ->
  snd (collect page) = extract page
  /\ n_rounds (fst (collect page)) = 1
  /\ n_scrolls (fst (collect page)) = 0
  /\ (forall batch, extract page = Ok batch ->
        0 < dict_len batch ->
        gains (fst (collect page)) = [dict_len batch]).
Proof.
  intros Hthr Hmax. unfold collect, scroll_and_collect.
  destruct (Z.to_nat max_scrolls) as [|fuel] eqn:E; [lia|].
  rewrite rounds_S. fold extract.
  destruct (extract page) as [batch|e] eqn:Eb.
  - cbv zeta.
    rewrite merge_into_empty
      by (eapply extract_video_cards_nodup; exact Eb).
    assert (Hst : (stable_rounds <=?
                   step_stable 0 (dict_len batch - dict_len [])) = true).
    { apply Z.leb_le. unfold step_stable.
      destruct (_ =? 0); lia. }
    rewrite Hst. repeat split. intros b [= <-] _.
    unfold dict_len; simpl. f_equal. lia.
  - repeat split. intros b Hb; discriminate.
Qed.

(** C10: with [max_scrolls <= 0] the loop returns the empty result set;
    the empty trace says that nothing was extracted and nothing
    scrolled. *)
Theorem collect_no_rounds page :
  max_scrolls <= 0 -> collect page = ([], Ok []).
Proof.
  intros Hmax. unfold collect, scroll_and_collect.
  replace (Z.to_nat max_scrolls) with O by lia. reflexivity.
Qed.

End CollectClaims.

Lemma collect_converged_witness :
  exists final, snd (collect_script 40 tt 1 [[]]) = Ok final.
Proof.
  pose proof (collect_converged script unit script_cards script_scroll
                script_sleep 40 tt 1 [[]]
                [EvExtract] [] 1 40 0 0 1 1 eq_refl) as [_ [_ H]].
  destruct (H ltac:(lia)) as [_ [_ Hfinal]]. exact Hfinal.
Defined.

Lemma collect_threshold_nonpositive_witness :
  snd (collect_script 40 tt 0 two_rounds_of_news)
  = Ok [(py "https://www.youtube.com/watch?v=a", 1000)].
Proof.
  pose proof (collect_threshold_nonpositive script unit script_cards
                script_scroll script_sleep 40 tt 0 two_rounds_of_news
                ltac:(lia) ltac:(lia)) as [H _].
  unfold collect_script. rewrite H. vm_compute. reflexivity.
Defined.

Lemma collect_no_rounds_witness :
  collect_script 0 tt 3 two_rounds_of_news = ([], Ok []).
Proof.
  apply (collect_no_rounds script unit script_cards script_scroll
           script_sleep 0 tt 3 two_rounds_of_news).
  lia.
Defined.

(** The scripted page of the claim: the loop stops at round 5, after four
    scrolls, whatever the bound (at least 5) and the pause. *)
Lemma two_rounds_of_news_stops_at_5 (Pause : Type) (scroll_pause : Pause)
  (max_scrolls : Z) :
  5 <= max_scrolls ->
  let run := collect_script max_scrolls scroll_pause 3 two_rounds_of_news in
  n_rounds (fst run) = 5
  /\ n_scrolls (fst run) = 4
  /\ gains (fst run) = [1; 1; 0; 0; 0]
  /\ stables (fst run) = [0; 0; 1; 2; 3]
  /\ snd run = Ok [(py "https://www.youtube.com/watch?v=a", 1000);
                   (py "https://www.youtube.com/watch?v=b", 2000)].
Proof.
  intros Hmax run. subst run. unfold collect_script, scroll_and_collect.
  destruct (Z.to_nat max_scrolls) as [|[|[|[|[|fuel]]]]] eqn:E; try lia.
  vm_compute. repeat split; reflexivity.
Qed.

(** C3: the loop runs at most [max_scrolls] rounds; its counter is the streak
    of no-growth rounds; a run that returns before round [max_scrolls] does
    so with the streak at [stable_rounds] or more, no earlier round had the
    streak that high, and the run ends on the break (one scroll fewer than
    rounds) exactly when the streak of its last round reached
    [stable_rounds].  On the scripted page with no new URL after round 2 and
    [stable_rounds = 3] the loop stops at round 5. *)
Theorem collect_stops (World Pause : Type)
  (cards_of : World -> result (list card))
  (scroll_to_bottom : World -> result World)
  (sleep : Pause -> World -> result World)
  (max_scrolls : Z) (scroll_pause : Pause) (stable_rounds : Z)
  (page : World) :
  let run := scroll_and_collect World Pause cards_of scroll_to_bottom sleep
               max_scrolls scroll_pause stable_rounds page in
  let t := fst run in
  n_rounds t <= Z.max 0 max_scrolls
  /\ stables t =
     map (fun k => streak (firstn (S k) (gains t)))
         (seq 0 (List.length (gains t)))
  /\ (forall final, snd run = Ok final ->
        (n_rounds t < max_scrolls -> stable_rounds <= streak (gains t))
        /\ (forall k, (0 < k)%nat -> Z.of_nat k < n_rounds t ->
                      streak (firstn k (gains t)) < stable_rounds)
        /\ (0 < n_rounds t ->
            (stable_rounds <= streak (gains t) <-> n_scrolls t < n_rounds t)))
  /\ (5 <= max_scrolls ->
      n_rounds (fst (collect_script max_scrolls scroll_pause 3
                       two_rounds_of_news)) = 5).
Proof.
  intros run t.
  destruct (collect_rounds World Pause cards_of scroll_to_bottom sleep
              max_scrolls scroll_pause stable_rounds page) as [H1 [H2 H3]].
  split; [exact H1|]. split; [exact H2|]. split; [exact H3|].
  intros Hmax.
  pose proof (two_rounds_of_news_stops_at_5 Pause scroll_pause max_scrolls
                Hmax) as H.
  cbv zeta in H. apply H.
Qed.

Lemma collect_stops_witness :
  n_rounds (fst (collect_script 40 tt 3 two_rounds_of_news)) = 5
  /\ 3 <= streak (gains (fst (collect_script 40 tt 3 two_rounds_of_news))).
Proof.
  pose proof (collect_stops script unit script_cards script_scroll
                script_sleep 40 tt 3 two_rounds_of_news) as [_ [_ [H3 H4]]].
  split; [apply H4; lia|].
  destruct (H3 [(py "https://www.youtube.com/watch?v=a", 1000);
                (py "https://www.youtube.com/watch?v=b", 2000)])
    as [He _]; [vm_compute; reflexivity|].
  apply He. vm_compute. reflexivity.
Defined.

(** ** The parser *)

Lemma parse_view_count_normalized text :
  parse_view_count text = parse_normalized (normalized text).
Proof. destruct text; reflexivity. Qed.

(** *** White space around the text *)

Lemma str_lstrip_spaces ws s :
  all_space ws -> str_lstrip (ws ++ s) = str_lstrip s.
Proof.
  induction 1 as [|c ws Hc _ IH]; simpl; [reflexivity|].
  rewrite Hc. exact IH.
Qed.

Lemma str_lstrip_app a b :
  str_lstrip (a ++ b) =
  if forallb is_space a then str_lstrip b else str_lstrip a ++ b.
Proof.
  induction a as [|c a IH]; simpl; [reflexivity|].
  destruct (is_space c); [exact IH | reflexivity].
Qed.

Lemma str_lstrip_all_space a : forallb is_space a = true -> str_lstrip a = [].
Proof.
  induction a as [|c a IH]; simpl; [reflexivity|].
  destruct (is_space c); [exact IH | discriminate].
Qed.

Lemma str_rstrip_spaces s ws :
  all_space ws -> str_rstrip (s ++ ws) = str_rstrip s.
Proof.
  intros H. unfold str_rstrip. rewrite rev_app_distr, str_lstrip_spaces.
  - reflexivity.
  - apply Forall_rev, H.
Qed.

Lemma str_rstrip_all_space ws : all_space ws -> str_rstrip ws = [].
Proof.
  intros H. rewrite <- (app_nil_l ws), str_rstrip_spaces by exact H.
  reflexivity.
Qed.

Lemma str_strip_spaces ws1 text ws2 :
  all_space ws1 -> all_space ws2 ->
  str_strip (ws1 ++ text ++ ws2) = str_strip text.
Proof.
  intros H1 H2. unfold str_strip.
  rewrite str_lstrip_spaces by exact H1. rewrite str_lstrip_app.
  destruct (forallb is_space text) eqn:E.
  - rewrite (str_lstrip_all_space _ E).
    rewrite (str_lstrip_all_space ws2)
      by (apply forallb_forall; apply Forall_forall; exact H2).
    reflexivity.
  - apply str_rstrip_spaces, H2.
Qed.

(** *** Letter case *)

Lemma lower_upper_char c : lower_char (upper_char c) = lower_char c.
Proof. destruct c as [[] [] [] [] [] [] [] []]; reflexivity. Qed.

Lemma lower_lower_char c : lower_char (lower_char c) = lower_char c.
Proof. destruct c as [[] [] [] [] [] [] [] []]; reflexivity. Qed.

Lemma is_space_lower_char c : is_space (lower_char c) = is_space c.
Proof. destruct c as [[] [] [] [] [] [] [] []]; reflexivity. Qed.

Lemma same_up_to_case_refl s : same_up_to_case s s.
Proof. induction s; constructor; auto. Qed.

Lemma recase_same ks s : same_up_to_case (recase ks s) s.
Proof.
  revert s. induction ks as [|k ks IH]; intros [|c s]; simpl;
    try apply same_up_to_case_refl.
  constructor; [|apply IH].
  destruct k; simpl; auto using lower_upper_char, lower_lower_char.
Qed.

Lemma same_up_to_case_space a b :
  lower_char a = lower_char b -> is_space a = is_space b.
Proof.
  intros H. rewrite <- (is_space_lower_char a), H. apply is_space_lower_char.
Qed.

Lemma same_up_to_case_lstrip s s' :
  same_up_to_case s s' -> same_up_to_case (str_lstrip s) (str_lstrip s').
Proof.
  induction 1 as [|a b s s' Hab Hs IH]; simpl; [constructor|].
  rewrite (same_up_to_case_space a b Hab).
  destruct (is_space b); [exact IH | constructor; assumption].
Qed.

Lemma same_up_to_case_rev s s' :
  same_up_to_case s s' -> same_up_to_case (rev s) (rev s').
Proof.
  induction 1 as [|a b s s' Hab Hs IH]; simpl; [constructor|].
  apply Forall2_app; [exact IH | constructor; [exact Hab | constructor]].
Qed.

Lemma same_up_to_case_strip s s' :
  same_up_to_case s s' -> same_up_to_case (str_strip s) (str_strip s').
Proof.
  intros H. unfold str_strip, str_rstrip.
  auto using same_up_to_case_rev, same_up_to_case_lstrip.
Qed.

Lemma same_up_to_case_lower s s' :
  same_up_to_case s s' -> str_lower s = str_lower s'.
Proof.
  induction 1 as [|a b s s' Hab Hs IH]; simpl; [reflexivity|].
  rewrite Hab, IH. reflexivity.
Qed.

Lemma normalized_same_up_to_case s s' :
  same_up_to_case s s' -> normalized s = normalized s'.
Proof.
  intros H. unfold normalized.
  rewrite (same_up_to_case_lower _ _ (same_up_to_case_strip _ _ H)).
  reflexivity.
Qed.

(** C5: the six documented results of the parser. *)
Theorem parse_view_count_examples :
  parse_view_count (py "1,234 views") = Ok (Some 1234)
  /\ parse_view_count (py "12K views") = Ok (Some 12000)
  /\ parse_view_count (py "1.2M views") = Ok (Some 1200000)
  /\ parse_view_count (py "3.4B views") = Ok (Some 3400000000)
  /\ parse_view_count (py "") = Ok None
  /\ parse_view_count (py "no data here") = Ok None.
Proof. repeat split; vm_compute; reflexivity. Qed.

(** C6: the result of the parser does not depend on the case of the letters
    of the text nor on white space before and after it; so
    "12k VIEWS" and "12K views" parse alike. *)
Theorem parse_view_count_case_and_space (text : str) :
  (forall ks, parse_view_count (recase ks text) = parse_view_count text)
  /\ (forall ws1 ws2, all_space ws1 -> all_space ws2 ->
        parse_view_count (ws1 ++ text ++ ws2) = parse_view_count text)
  /\ (forall ks ws1 ws2, all_space ws1 -> all_space ws2 ->
        parse_view_count (ws1 ++ recase ks text ++ ws2)
        = parse_view_count text)
  /\ parse_view_count (py "12k VIEWS") = parse_view_count (py "12K views").
Proof.
  assert (Hcase : forall ks s,
             parse_view_count (recase ks s) = parse_view_count s).
  { intros ks s. rewrite !parse_view_count_normalized.
    rewrite (normalized_same_up_to_case _ _ (recase_same ks s)).
    reflexivity. }
  assert (Hspace : forall s ws1 ws2, all_space ws1 -> all_space ws2 ->
             parse_view_count (ws1 ++ s ++ ws2) = parse_view_count s).
  { intros s ws1 ws2 H1 H2. rewrite !parse_view_count_normalized.
    unfold normalized. rewrite str_strip_spaces by assumption.
    reflexivity. }
  split; [intros; apply Hcase|]. split; [intros; apply Hspace; assumption|].
  split; [|vm_compute; reflexivity].
  intros ks ws1 ws2 H1 H2. rewrite Hspace by assumption. apply Hcase.
Qed.

Lemma parse_view_count_case_and_space_witness :
  parse_view_count
    (py "  " ++
     recase [Keep; Keep; ToLower; Keep; ToUpper; ToUpper; ToUpper; ToUpper;
             ToUpper] (py "12K views") ++
     py " ")
  = parse_view_count (py "12K views").
Proof.
  apply (parse_view_count_case_and_space (py "12K views"));
    repeat constructor.
Defined.

(** C2 fails on "8.2M views": the pattern finds the token 8.2 and the suffix
    m, [floor (8.2 * 1000000)] is 8200000, and the parser returns 8199999:
    the binary64 nearest to 8.2 lies below 8.2, its product with 1000000 is
    rounded to a binary64 below 8200000, and [int] truncates. *)
Theorem parse_view_count_8_2M :
  VIEW_RE_search (normalized (py "8.2M views"))
  = Some [("suffix"%string, py "m"); ("num"%string, py "8.2")]
  /\ decimal (py "8.2") = Some (82, 10)
  /\ (82 * 1000000) / 10 = 8200000
  /\ float_of_str (py "8.2") = Ok (Finite 4616189618054758 (-49))
  /\ float_mul_int (Finite 4616189618054758 (-49)) 1000000
     = Finite 8804682956799999 (-30)
  /\ parse_view_count (py "8.2M views") = Ok (Some 8199999).
Proof. repeat split; vm_compute; reflexivity. Qed.

(** *** Where the float arithmetic is exact *)

Lemma div_eucl_div_mod a b : Z.div_eucl a b = (a / b, a mod b).
Proof.
  unfold Z.div, Z.modulo. destruct (Z.div_eucl a b). reflexivity.
Qed.

Lemma scaled_integer N j e :
  0 <= j -> e <= 0 ->
  exists d, scaled (N * 2 ^ j) (2 ^ j) e = (N * 2 ^ (- e), 0, d) /\ 0 < d.
Proof.
  intros Hj He. unfold scaled.
  assert (Hpj : 0 < 2 ^ j) by (apply Z.pow_pos_nonneg; lia).
  destruct (0 <=? e) eqn:E.
  - apply Z.leb_le in E. assert (e = 0) by lia. subst e. simpl (- 0).
    rewrite Z.pow_0_r, !Z.mul_1_r, div_eucl_div_mod.
    rewrite Z.div_mul, Z.mod_mul by lia.
    exists (2 ^ j). split; [reflexivity | exact Hpj].
  - rewrite div_eucl_div_mod.
    replace (N * 2 ^ j * 2 ^ (- e)) with (N * 2 ^ (- e) * 2 ^ j) by ring.
    rewrite Z.div_mul, Z.mod_mul by lia.
    exists (2 ^ j). split; [reflexivity | exact Hpj].
Qed.

Lemma binade_integer N j :
  0 < N < 2 ^ 53 -> 0 <= j -> binade (N * 2 ^ j) (2 ^ j) <= 0.
Proof.
  intros [HN0 HN] Hj. unfold binade.
  rewrite Z.log2_mul_pow2, Z.log2_pow2 by lia.
  assert (Z.log2 N < 53) by (apply Z.log2_lt_pow2; lia).
  unfold emin. destruct (_ <? _); lia.
Qed.

Lemma round_even_integer N j :
  0 <= N < 2 ^ 53 -> 0 <= j ->
  holds_integer (round_even (N * 2 ^ j) (2 ^ j)) N.
Proof.
  intros [HN0 HN] Hj. unfold round_even.
  assert (Hpj : 0 < 2 ^ j) by (apply Z.pow_pos_nonneg; lia).
  destruct (N * 2 ^ j =? 0) eqn:E0.
  { apply Z.eqb_eq in E0. assert (N = 0) by nia. subst N.
    exists 0, 0. repeat split; lia. }
  apply Z.eqb_neq in E0. assert (HNpos : 0 < N) by nia.
  pose proof (binade_integer N j (conj HNpos HN) Hj) as He.
  set (e := binade (N * 2 ^ j) (2 ^ j)) in *.
  destruct (scaled_integer N j e Hj He) as [d [-> Hd]].
  replace (d <? 2 * 0) with false by (symmetry; apply Z.ltb_ge; lia).
  replace (d =? 2 * 0) with false by (symmetry; apply Z.eqb_neq; lia).
  cbn [orb andb].
  destruct (N * 2 ^ (- e) =? 2 ^ 53) eqn:E53.
  - apply Z.eqb_eq in E53.
    assert (He' : e < 0).
    { destruct (Z.eq_dec e 0) as [->|]; [|lia].
      simpl in E53. rewrite Z.mul_1_r in E53. lia. }
    replace (emax <? e + 1) with false
      by (symmetry; apply Z.ltb_ge; unfold emax; lia).
    exists (2 ^ 52), (e + 1). split; [reflexivity|]. split; [lia|].
    replace (- e) with (- (e + 1) + 1) in E53 by lia.
    rewrite Z.pow_add_r in E53 by lia.
    change (2 ^ 53) with (2 ^ 52 * 2 ^ 1) in E53. lia.
  - replace (emax <? e) with false
      by (symmetry; apply Z.ltb_ge; unfold emax; lia).
    exists (N * 2 ^ (- e)), e. repeat split; lia.
Qed.

Lemma float_mul_int_integer x N k :
  holds_integer x N -> 0 <= N -> 0 < k -> N * k < 2 ^ 53 ->
  holds_integer (float_mul_int x k) (N * k).
Proof.
  intros [m [e [-> [He ->]]]] HN Hk Hlt. unfold float_mul_int.
  destruct (0 <=? e) eqn:E.
  - apply Z.leb_le in E. assert (e = 0) by lia. subst e.
    replace (round_even (N * 2 ^ (- 0) * k * 2 ^ 0) 1)
      with (round_even (N * k * 2 ^ 0) (2 ^ 0))
      by (f_equal; simpl; ring).
    apply round_even_integer; nia.
  - replace (N * 2 ^ (- e) * k) with (N * k * 2 ^ (- e)) by ring.
    apply round_even_integer; [nia | lia].
Qed.

Lemma int_of_float_integer x N : holds_integer x N -> int_of_float x = Ok N.
Proof.
  intros [m [e [-> [He ->]]]]. unfold int_of_float. f_equal.
  destruct (0 <=? e) eqn:E.
  - apply Z.leb_le in E. assert (e = 0) by lia. subst e. simpl. lia.
  - apply Z.div_mul.
    assert (0 < 2 ^ (- e)) by (apply Z.pow_pos_nonneg; lia). lia.
Qed.

Lemma digits_value_nonneg ds acc :
  forallb is_digit ds = true -> 0 <= acc -> 0 <= digits_value acc ds.
Proof.
  revert acc. induction ds as [|c ds IH]; intros acc Hd H; simpl;
    [exact H|].
  simpl in Hd. apply andb_prop in Hd. destruct Hd as [Hc Hd].
  apply IH; [exact Hd|].
  unfold is_digit in Hc. cbv zeta in Hc. unfold digit_value.
  apply andb_prop in Hc. destruct Hc as [Hc _]. apply Z.leb_le in Hc.
  change (0 <= 10 * acc + (code c - 48)). lia.
Qed.

Lemma all_digits_forallb s : all_digits s = true -> forallb is_digit s = true.
Proof. destruct s; [discriminate | auto]. Qed.

Lemma decimal_nonneg s p q : decimal s = Some (p, q) -> 0 <= p /\ 0 < q.
Proof.
  unfold decimal. destruct (split_at_dot s) as [ip [fp|]].
  - destruct (all_digits ip) eqn:Ei; [|discriminate].
    destruct (all_digits fp) eqn:Ef; [|discriminate]. simpl.
    intros [= <- <-]. split.
    + apply digits_value_nonneg; [|lia].
      rewrite forallb_app, (all_digits_forallb _ Ei),
        (all_digits_forallb _ Ef). reflexivity.
    + apply Z.pow_pos_nonneg; lia.
  - destruct (all_digits ip) eqn:Ei; [|discriminate].
    intros [= <- <-]. split; [|lia].
    apply digits_value_nonneg; [apply all_digits_forallb, Ei | lia].
Qed.

Lemma suffix_mult_pos suffix : 1 <= suffix_mult suffix.
Proof.
  unfold suffix_mult. repeat destruct (str_eqb _ _); lia.
Qed.

(** X23: where the parser is exact: a token without a fraction part whose
    product with the multiplier is below [2^53] is returned as that
    product. *)
Lemma parse_view_count_integer_token text m tok p :
  VIEW_RE_search (normalized text) = Some m ->
  group "num" m = Some tok ->
  decimal tok = Some (p, 1) ->
  let mult := suffix_mult (str_lower (match group "suffix" m with
                                      | Some s => s
                                      | None => []
                                      end)) in
  p * mult < 2 ^ 53 ->
  parse_view_count text = Ok (Some (p * mult)).
Proof.
  intros Hm Hnum Hdec mult Hlt.
  destruct (decimal_nonneg _ _ _ Hdec) as [Hp _].
  rewrite parse_view_count_normalized. unfold parse_normalized.
  rewrite Hm, Hnum. unfold float_of_str. rewrite Hdec. simpl bind.
  fold mult.
  pose proof (suffix_mult_pos
                (str_lower (match group "suffix" m with
                            | Some s => s
                            | None => []
                            end))) as Hmult. fold mult in Hmult.
  assert (Hx : holds_integer (round_even p 1) p).
  { replace (round_even p 1) with (round_even (p * 2 ^ 0) (2 ^ 0))
      by (f_equal; simpl; ring).
    apply round_even_integer; nia. }
  assert (Hy : holds_integer (float_mul_int (round_even p 1) mult)
                 (p * mult))
    by (apply float_mul_int_integer; [exact Hx | lia | lia | exact Hlt]).
  rewrite (int_of_float_integer _ _ Hy). reflexivity.
Qed.

Lemma parse_view_count_integer_token_witness :
  parse_view_count (py "9,007,199,254 K views") = Ok (Some 9007199254000).
Proof.
  apply (parse_view_count_integer_token (py "9,007,199,254 K views")
           [("suffix"%string, py "k"); ("num"%string, py "9007199254")]
           (py "9007199254") 9007199254);
    vm_compute; reflexivity.
Defined.

(** *** What the pattern matches *)

Lemma re_match_star_sound icase r
  (IH : forall g s g' rest,
      In (g', rest) (re_match icase r g s) ->
      exists consumed, s = consumed ++ rest /\ matches icase r consumed) :
  forall fuel g s g' rest,
    In (g', rest)
       ((fix star (fuel : nat) (g : groups) (s : str) : list (groups * str) :=
           match fuel with
           | O => [(g, s)]
           | S fuel' =>
               flat_map
                 (fun gs =>
                    if (List.length (snd gs) <? List.length s)%nat
                    then star fuel' (fst gs) (snd gs)
                    else [])
                 (re_match icase r g s)
               ++ [(g, s)]
           end) fuel g s) ->
    exists consumed, s = consumed ++ rest /\ matches icase (Star r) consumed.
Proof.
  induction fuel as [|fuel IHf]; intros g s g' rest H.
  - destruct H as [[= <- <-]|[]]. exists []. split; [reflexivity|constructor].
  - apply in_app_or in H. destruct H as [H|[[= <- <-]|[]]].
    + apply in_flat_map in H. destruct H as [[g1 s1] [H1 H2]].
      simpl in H2. destruct (List.length s1 <? List.length s)%nat; [|easy].
      destruct (IH _ _ _ _ H1) as [c1 [-> M1]].
      destruct (IHf _ _ _ _ H2) as [c2 [-> M2]].
      exists (c1 ++ c2). split; [rewrite app_assoc; reflexivity|].
      constructor; assumption.
    + exists []. split; [reflexivity|constructor].
Qed.

(** Every match the matcher tries is a match of the expression on a prefix
    of the text. *)
Lemma re_match_sound icase r :
  forall g s g' rest,
    In (g', rest) (re_match icase r g s) ->
    exists consumed, s = consumed ++ rest /\ matches icase r consumed.
Proof.
  induction r as [c|p|r1 IH1 r2 IH2|r1 IH1|r1 IH1|name r1 IH1];
    intros g s g' rest H.
  - simpl in H. destruct s as [|x s]; [easy|].
    destruct (same_letter icase c x) eqn:E; [|easy].
    destruct H as [[= <- <-]|[]]. exists [x]. split; [reflexivity|].
    constructor; exact E.
  - simpl in H. destruct s as [|x s]; [easy|].
    destruct (in_class icase p x) eqn:E; [|easy].
    destruct H as [[= <- <-]|[]]. exists [x]. split; [reflexivity|].
    constructor; exact E.
  - simpl in H. apply in_flat_map in H. destruct H as [[g1 s1] [H1 H2]].
    destruct (IH1 _ _ _ _ H1) as [c1 [-> M1]].
    destruct (IH2 _ _ _ _ H2) as [c2 [E2 M2]]. simpl in E2. subst s1.
    exists (c1 ++ c2). split; [rewrite app_assoc; reflexivity|].
    constructor; assumption.
  - simpl in H. apply in_app_or in H. destruct H as [H|[[= <- <-]|[]]].
    + destruct (IH1 _ _ _ _ H) as [c1 [-> M1]].
      exists c1. split; [reflexivity | apply MOptSome; exact M1].
    + exists []. split; [reflexivity | constructor].
  - simpl in H. eapply re_match_star_sound; [exact IH1 | exact H].
  - simpl in H. apply in_map_iff in H. destruct H as [[g1 s1] [[= <- <-] H1]].
    destruct (IH1 _ _ _ _ H1) as [c1 [-> M1]].
    exists c1. split; [reflexivity | constructor; exact M1].
Qed.

Lemma re_match_star_groups icase name r
  (IH : forall g s g' rest,
      In (g', rest) (re_match icase r g s) -> group name g' = group name g) :
  forall fuel g s g' rest,
    In (g', rest)
       ((fix star (fuel : nat) (g : groups) (s : str) : list (groups * str) :=
           match fuel with
           | O => [(g, s)]
           | S fuel' =>
               flat_map
                 (fun gs =>
                    if (List.length (snd gs) <? List.length s)%nat
                    then star fuel' (fst gs) (snd gs)
                    else [])
                 (re_match icase r g s)
               ++ [(g, s)]
           end) fuel g s) ->
    group name g' = group name g.
Proof.
  induction fuel as [|fuel IHf]; intros g s g' rest H.
  - destruct H as [[= <- <-]|[]]. reflexivity.
  - apply in_app_or in H. destruct H as [H|[[= <- <-]|[]]]; [|reflexivity].
    apply in_flat_map in H. destruct H as [[g1 s1] [H1 H2]].
    simpl in H2. destruct (List.length s1 <? List.length s)%nat; [|easy].
    rewrite (IHf _ _ _ _ H2). exact (IH _ _ _ _ H1).
Qed.

(** An expression without a group [name] leaves that group as it is. *)
Lemma re_match_groups icase name r :
  binds name r = false ->
  forall g s g' rest,
    In (g', rest) (re_match icase r g s) -> group name g' = group name g.
Proof.
  induction r as [c|p|r1 IH1 r2 IH2|r1 IH1|r1 IH1|n r1 IH1];
    simpl; intros Hb g s g' rest H.
  - destruct s as [|x s]; [easy|].
    destruct (same_letter icase c x); [|easy].
    destruct H as [[= <- <-]|[]]. reflexivity.
  - destruct s as [|x s]; [easy|].
    destruct (in_class icase p x); [|easy].
    destruct H as [[= <- <-]|[]]. reflexivity.
  - apply orb_false_elim in Hb. destruct Hb as [Hb1 Hb2].
    apply in_flat_map in H. destruct H as [[g1 s1] [H1 H2]].
    rewrite (IH2 Hb2 _ _ _ _ H2). exact (IH1 Hb1 _ _ _ _ H1).
  - apply in_app_or in H. destruct H as [H|[[= <- <-]|[]]]; [|reflexivity].
    exact (IH1 Hb _ _ _ _ H).
  - eapply re_match_star_groups; [exact (IH1 Hb) | exact H].
  - apply orb_false_elim in Hb. destruct Hb as [Hn Hb].
    apply in_map_iff in H. destruct H as [[g1 s1] [[= <- <-] H1]].
    simpl. rewrite Hn. exact (IH1 Hb _ _ _ _ H1).
Qed.

Lemma VIEW_RE_parts : VIEW_RE = Cat (Grp "num" num_re) after_num_re.
Proof. reflexivity. Qed.

Lemma in_class_digit x : in_class true is_digit x = true -> is_digit x = true.
Proof.
  destruct x as [[] [] [] [] [] [] [] []]; vm_compute; intros H;
    first [reflexivity | discriminate H].
Qed.

Lemma same_letter_dot x : same_letter true "." x = true -> x = "."%char.
Proof.
  destruct x as [[] [] [] [] [] [] [] []]; vm_compute; intros H;
    first [reflexivity | discriminate H].
Qed.

Lemma is_digit_not_dot x : is_digit x = true -> Ascii.eqb x "." = false.
Proof.
  destruct x as [[] [] [] [] [] [] [] []]; vm_compute; intros H;
    first [reflexivity | discriminate H].
Qed.

Lemma matches_star_digit s :
  matches true (Star digit) s -> forallb is_digit s = true.
Proof.
  intros H. remember (Star digit) as r eqn:Er.
  induction H as [| | | | | |r s1 s2 H1 _ H2 IH2|]; try discriminate.
  - reflexivity.
  - injection Er as ->. rewrite forallb_app, (IH2 eq_refl), andb_true_r.
    inversion H1; subst. simpl. rewrite in_class_digit by assumption.
    reflexivity.
Qed.

Lemma matches_plus_digit s :
  matches true (Plus digit) s -> all_digits s = true.
Proof.
  intros H. inversion H as [| |r1 r2 s1 s2 H1 H2| | | | |]; subst.
  inversion H1; subst. simpl.
  rewrite in_class_digit by assumption.
  apply matches_star_digit, H2.
Qed.

Lemma split_at_dot_digits ds rest :
  forallb is_digit ds = true ->
  split_at_dot (ds ++ rest) =
  (ds ++ fst (split_at_dot rest), snd (split_at_dot rest)).
Proof.
  induction ds as [|c ds IH]; simpl; intros H.
  - destruct (split_at_dot rest); reflexivity.
  - apply andb_prop in H. destruct H as [Hc Hd].
    rewrite (is_digit_not_dot c Hc), (IH Hd). reflexivity.
Qed.

(** What [num_re] matches is a decimal literal. *)
Lemma matches_num_decimal tok :
  matches true num_re tok -> exists p q, decimal tok = Some (p, q).
Proof.
  intros H. inversion H as [| |r1 r2 s1 s2 H1 H2| | | | |]; subst.
  pose proof (matches_plus_digit _ H1) as D1.
  pose proof (all_digits_forallb _ D1) as F1.
  unfold decimal. rewrite (split_at_dot_digits _ _ F1).
  inversion H2 as [| | |r|r s H3| | |]; subst.
  - simpl. rewrite app_nil_r, D1. eauto.
  - inversion H3 as [| |r1 r2 s3 s4 H4 H5| | | | |]; subst.
    inversion H4; subst.
    match goal with
    | Hd : same_letter true "." ?x = true |- _ =>
        apply same_letter_dot in Hd; subst x
    end.
    simpl. rewrite app_nil_r, D1, (matches_plus_digit _ H5). simpl. eauto.
Qed.

Lemma firstn_consumed (c rest : str) :
  firstn (List.length (c ++ rest) - List.length rest) (c ++ rest) = c.
Proof.
  rewrite length_app, Nat.add_sub. rewrite firstn_app, Nat.sub_diag.
  rewrite firstn_all, firstn_O, app_nil_r. reflexivity.
Qed.

Lemma re_search_found icase r s m :
  re_search icase r s = Some m ->
  exists s' rest, In (m, rest) (re_match icase r [] s').
Proof.
  induction s as [|c s IH]; simpl.
  - destruct (re_match icase r [] []) as [|[g rest] l] eqn:E; [discriminate|].
    intros [= <-]. exists [], rest. rewrite E. left; reflexivity.
  - destruct (re_match icase r [] (c :: s)) as [|[g rest] l] eqn:E.
    + exact IH.
    + intros [= <-]. exists (c :: s), rest. rewrite E. left; reflexivity.
Qed.

(** The group [num] of a match of [VIEW_RE] holds a decimal literal. *)
Lemma VIEW_RE_search_num t m :
  VIEW_RE_search t = Some m ->
  exists tok p q, group "num" m = Some tok /\ decimal tok = Some (p, q).
Proof.
  unfold VIEW_RE_search. intros H.
  destruct (re_search_found _ _ _ _ H) as [s' [rest Hin]].
  rewrite VIEW_RE_parts in Hin. cbn [re_match] in Hin.
  apply in_flat_map in Hin. destruct Hin as [[g1 s1] [H1 H2]].
  apply in_map_iff in H1. destruct H1 as [[g0 s0] [[= <- <-] H0]].
  destruct (re_match_sound _ _ _ _ _ _ H0) as [c [E Mc]]. simpl in E.
  subst s'. simpl fst in H2; simpl snd in H2.
  rewrite firstn_consumed in H2.
  pose proof (re_match_groups true "num" after_num_re eq_refl _ _ _ _ H2)
    as Hg.
  simpl in Hg.
  destruct (matches_num_decimal c Mc) as [p [q Hd]].
  exists c, p, q. split; assumption.
Qed.

(** The parser raises nothing but the [OverflowError] of [int(inf)]. *)
Lemma parse_view_count_raises text e :
  parse_view_count text = Raise e -> e = OverflowError.
Proof.
  rewrite parse_view_count_normalized. unfold parse_normalized.
  destruct (VIEW_RE_search (normalized text)) as [m|] eqn:Hm; [|discriminate].
  destruct (VIEW_RE_search_num _ _ Hm) as [tok [p [q [Hg Hd]]]].
  rewrite Hg. unfold float_of_str. rewrite Hd. simpl bind.
  destruct (float_mul_int _ _); simpl; [discriminate|].
  intros [= <-]. reflexivity.
Qed.

Lemma parse_view_count_raises_witness :
  OverflowError = OverflowError.
Proof.
  apply (parse_view_count_raises
           (repeat "9"%char 400 ++ py " views") OverflowError).
  vm_compute. reflexivity.
Defined.

(** * Further properties *)

(** ** The parser *)

Lemma scaled_nonneg p q e :
  0 <= p -> 0 < q -> 0 <= fst (fst (scaled p q e)).
Proof.
  intros Hp Hq. unfold scaled.
  destruct (0 <=? e) eqn:E; rewrite div_eucl_div_mod; simpl.
  - apply Z.leb_le in E. apply Z.div_pos; [exact Hp|].
    apply Z.mul_pos_pos; [exact Hq | apply Z.pow_pos_nonneg; lia].
  - apply Z.leb_gt in E. apply Z.div_pos; [|exact Hq].
    apply Z.mul_nonneg_nonneg; [exact Hp|].
    apply Z.pow_nonneg; lia.
Qed.

Lemma round_even_nonneg p q : 0 <= p -> 0 < q -> float_nonneg (round_even p q).
Proof.
  intros Hp Hq. unfold round_even.
  destruct (p =? 0); [simpl; lia|].
  pose proof (scaled_nonneg p q (binade p q) Hp Hq) as Hm.
  destruct (scaled p q (binade p q)) as [[m r] d]. simpl in Hm.
  set (m' := if (d <? 2 * r) || ((d =? 2 * r) && Z.odd m) then m + 1 else m).
  assert (Hm' : 0 <= m') by (unfold m'; destruct (_ || _); lia).
  destruct (m' =? 2 ^ 53).
  - destruct (emax <? binade p q + 1); simpl; lia.
  - destruct (emax <? binade p q); simpl; lia.
Qed.

Lemma float_mul_int_nonneg x k :
  float_nonneg x -> 0 < k -> float_nonneg (float_mul_int x k).
Proof.
  destruct x as [m e|]; simpl; [|trivial]. intros Hm Hk.
  destruct (0 <=? e) eqn:E.
  - apply Z.leb_le in E. apply round_even_nonneg; [|lia].
    apply Z.mul_nonneg_nonneg; [nia | apply Z.pow_nonneg; lia].
  - apply Z.leb_gt in E. apply round_even_nonneg; [nia|].
    apply Z.pow_pos_nonneg; lia.
Qed.

Lemma int_of_float_nonneg x v :
  float_nonneg x -> int_of_float x = Ok v -> 0 <= v.
Proof.
  destruct x as [m e|]; simpl; [|discriminate]. intros Hm [= <-].
  destruct (0 <=? e) eqn:E.
  - apply Z.leb_le in E. apply Z.mul_nonneg_nonneg; [exact Hm|].
    apply Z.pow_nonneg; lia.
  - apply Z.leb_gt in E. apply Z.div_pos; [exact Hm|].
    apply Z.pow_pos_nonneg; lia.
Qed.

(** X1: a view count that the parser returns is never negative. *)
Theorem parse_view_count_nonneg text v :
  parse_view_count text = Ok (Some v) -> 0 <= v.
Proof.
  rewrite parse_view_count_normalized. unfold parse_normalized.
  destruct (VIEW_RE_search (normalized text)) as [m|] eqn:Hm; [|discriminate].
  destruct (VIEW_RE_search_num _ _ Hm) as [tok [p [q [Hg Hd]]]].
  rewrite Hg. unfold float_of_str. rewrite Hd. simpl bind.
  destruct (decimal_nonneg _ _ _ Hd) as [Hp Hq].
  set (mult := suffix_mult _).
  assert (Hmult : 0 < mult) by (pose proof (suffix_mult_pos
    (str_lower (match group "suffix" m with Some s => s | None => [] end)));
    fold mult in H; lia).
  pose proof (float_mul_int_nonneg _ mult (round_even_nonneg p q Hp Hq) Hmult)
    as Hx.
  destruct (int_of_float (float_mul_int (round_even p q) mult)) as [v'|e]
    eqn:Ev; simpl; [|discriminate].
  intros [= <-]. eapply int_of_float_nonneg; eassumption.
Qed.

Lemma parse_view_count_nonneg_witness : 0 <= 8199999.
Proof.
  apply (parse_view_count_nonneg (py "8.2M views") 8199999).
  vm_compute. reflexivity.
Defined.

(** X2: the only exception the parser raises is the [OverflowError] of
    [int(inf)]; [float()] never fails on what the pattern captured. *)
Theorem parse_view_count_only_overflow text e :
  parse_view_count text = Raise e -> e = OverflowError.
Proof. apply parse_view_count_raises. Qed.

Lemma parse_view_count_only_overflow_witness : OverflowError = OverflowError.
Proof.
  apply (parse_view_count_only_overflow
           (repeat "1"%char 310 ++ py " views") OverflowError).
  vm_compute. reflexivity.
Defined.

Lemma re_search_where icase r s m :
  re_search icase r s = Some m ->
  exists pre s' rest, s = pre ++ s' /\ In (m, rest) (re_match icase r [] s').
Proof.
  induction s as [|c s IH]; simpl.
  - destruct (re_match icase r [] []) as [|[g rest] l] eqn:E; [discriminate|].
    intros [= <-]. exists [], [], rest. rewrite E. split; [reflexivity|].
    left; reflexivity.
  - destruct (re_match icase r [] (c :: s)) as [|[g rest] l] eqn:E.
    + intros H. destruct (IH H) as [pre [s' [rest [-> Hin]]]].
      exists (c :: pre), s', rest. split; [reflexivity | exact Hin].
    + intros [= <-]. exists [], (c :: s), rest. rewrite E.
      split; [reflexivity | left; reflexivity].
Qed.











Lemma str_lstrip_ink a x : has_ink a -> str_lstrip (a ++ x) = str_lstrip a ++ x.
Proof. unfold has_ink. intros H. rewrite str_lstrip_app, H. reflexivity. Qed.

Lemma forallb_rev_eq {A : Type} (f : A -> bool) l :
  forallb f (rev l) = forallb f l.
Proof.
  induction l as [|x l IH]; [reflexivity|].
  simpl. rewrite forallb_app, IH. simpl.
  rewrite andb_true_r. apply andb_comm.
Qed.

Lemma str_rstrip_ink x b : has_ink b -> str_rstrip (x ++ b) = x ++ str_rstrip b.
Proof.
  unfold has_ink. intros H. unfold str_rstrip.
  rewrite rev_app_distr, str_lstrip_ink
    by (unfold has_ink; rewrite forallb_rev_eq; exact H).
  rewrite rev_app_distr, rev_involutive. reflexivity.
Qed.

Lemma str_strip_ink a b :
  has_ink a -> has_ink b -> str_strip (a ++ b) = str_lstrip a ++ str_rstrip b.
Proof.
  intros Ha Hb. unfold str_strip.
  rewrite str_lstrip_ink by exact Ha. apply str_rstrip_ink, Hb.
Qed.

Lemma has_ink_cons_comma b : has_ink ("," :: b)%char.
Proof. reflexivity. Qed.

(** X4: a comma inside the text is ignored: between two parts that each
    hold a character other than white space, it changes nothing. *)
Theorem parse_view_count_comma a b :
  has_ink a -> has_ink b ->
  parse_view_count (a ++ ("," :: b)%char) = parse_view_count (a ++ b).
Proof.
  intros Ha Hb. rewrite !parse_view_count_normalized. f_equal.
  unfold normalized.
  rewrite (str_strip_ink a b Ha Hb).
  rewrite (str_strip_ink a _ Ha (has_ink_cons_comma b)).
  change ("," :: b)%char with ([","%char] ++ b).
  rewrite (str_rstrip_ink _ b Hb).
  unfold str_lower, str_remove. rewrite !map_app, !filter_app.
  reflexivity.
Qed.

Lemma parse_view_count_comma_witness :
  parse_view_count (py "1" ++ ("," :: py "234 views")%char)
  = parse_view_count (py "1" ++ py "234 views").
Proof.
  apply (parse_view_count_comma (py "1") (py "234 views")); reflexivity.
Defined.

(** ** The extraction *)

(** The body of the loop, by the URL and the view count of the card. *)
Lemma extract_card_by_url results c :
  extract_card results c =
  match card_url c with
  | None => Ok results
  | Some url =>
      if dict_contains url results then Ok results
      else
        vc <- card_views c ;;
        Ok (match vc with
            | Some v => dict_set url v results
            | None => results
            end)
  end.
Proof.
  unfold extract_card, card_url, card_views, primary_text, fallback_views.
  destruct (href c) as [[[|a h]|]|e]; try reflexivity.
  destruct (dict_contains _ results); [reflexivity|].
  destruct (parse_view_count _) as [[v|]|e]; simpl; try reflexivity.
  destruct (spans c) as [ss|e]; [|reflexivity].
  destruct (parse_view_count _) as [[v|]|e]; reflexivity.
Qed.

Lemma dict_get_none_contains k d :
  dict_contains k d = false -> dict_get k d = None.
Proof. unfold dict_contains. destruct (dict_get k d); congruence. Qed.

Lemma dict_get_set_new k v d k0 :
  dict_contains k d = false ->
  dict_get k0 (dict_set k v d) =
  match dict_get k0 d with
  | Some v0 => Some v0
  | None => if str_eqb k k0 then Some v else None
  end.
Proof.
  intros H. rewrite (dict_set_absent _ _ _ H), dict_get_app. reflexivity.
Qed.

(** X5: what a pass stores under a URL: the value already there, else the
    view count of the first card with that URL that has one; a card without
    a count leaves the URL open for a later card. *)
Theorem extract_cards_lookup cards :
  forall results results' url,
    extract_cards results cards = Ok results' ->
    dict_get url results' =
    match dict_get url results with
    | Some v => Some v
    | None => first_views url cards
    end.
Proof.
  induction cards as [|c cards IH]; intros d d' url H; simpl in H.
  - injection H as <-. destruct (dict_get url d); reflexivity.
  - destruct (extract_card d c) as [d1|e] eqn:E; simpl in H; [|discriminate].
    rewrite (IH _ _ url H). clear IH H.
    rewrite extract_card_by_url in E. cbn [first_views].
    destruct (card_url c) as [u|]; [|injection E as <-; reflexivity].
    destruct (dict_contains u d) eqn:Hc.
    + injection E as <-.
      destruct (str_eqb u url) eqn:Eu; [|reflexivity].
      apply str_eqb_eq in Eu. subst u.
      unfold dict_contains in Hc. destruct (dict_get url d); [reflexivity|].
      discriminate.
    + destruct (card_views c) as [[v|]|e]; simpl in E; try discriminate.
      * injection E as <-. rewrite (dict_get_set_new _ _ _ _ Hc).
        destruct (str_eqb u url) eqn:Eu.
        -- apply str_eqb_eq in Eu. subst u.
           rewrite (dict_get_none_contains _ _ Hc). reflexivity.
        -- destruct (dict_get url d); reflexivity.
      * injection E as <-.
        destruct (str_eqb u url); reflexivity.
Qed.

Lemma extract_cards_lookup_witness :
  dict_get (py "https://www.youtube.com/watch?v=b")
    [(py "https://www.youtube.com/watch?v=a", 1000);
     (py "https://www.youtube.com/watch?v=b", 2000)] = Some 2000.
Proof.
  apply (extract_cards_lookup
           [video "/watch?v=a" "1K views"; video "/watch?v=b" "no count";
            video "/watch?v=b" "2K views"; video "/watch?v=b" "9K views"]
           [] _ (py "https://www.youtube.com/watch?v=b")).
  vm_compute. reflexivity.
Defined.

Lemma card_url_resolved c url : card_url c = Some url -> resolved url.
Proof.
  unfold card_url. destruct (href c) as [[[|a h]|]|e]; try discriminate.
  destruct (str_startswith (py "/") (a :: h)) eqn:E; intros [= <-].
  - split; [discriminate | reflexivity].
  - split; [discriminate | exact E].
Qed.

Lemma extract_card_resolved results c results' :
  extract_card results c = Ok results' ->
  Forall resolved (dict_keys results) -> Forall resolved (dict_keys results').
Proof.
  rewrite extract_card_by_url. intros H Hr.
  destruct (card_url c) as [u|] eqn:Eu; [|injection H as <-; exact Hr].
  destruct (dict_contains u results) eqn:Hc; [injection H as <-; exact Hr|].
  destruct (card_views c) as [[v|]|e]; simpl in H; try discriminate;
    injection H as <-; [|exact Hr].
  rewrite (dict_set_absent _ _ _ Hc). unfold dict_keys. rewrite map_app.
  apply Forall_app. split; [exact Hr|].
  constructor; [exact (card_url_resolved _ _ Eu) | constructor].
Qed.

Lemma extract_cards_resolved cards :
  forall results results',
    extract_cards results cards = Ok results' ->
    Forall resolved (dict_keys results) ->
    Forall resolved (dict_keys results').
Proof.
  induction cards as [|c cards IH]; simpl; intros d d' H Hr.
  - injection H as <-; exact Hr.
  - destruct (extract_card d c) as [d1|e] eqn:E; simpl in H; [|discriminate].
    eapply IH; [exact H|]. eapply extract_card_resolved; eassumption.
Qed.

Lemma extract_video_cards_resolved (World : Type)
  (cards_of : World -> result (list card)) page batch :
  extract_video_cards World cards_of page = Ok batch ->
  Forall resolved (dict_keys batch).
Proof.
  unfold extract_video_cards. destruct (cards_of page) as [cards|e]; simpl;
    [|discriminate].
  intros H. eapply extract_cards_resolved; [exact H | constructor].
Qed.

(** X6: the URLs of a batch are pairwise different, none is empty and none
    starts with "/": a path from the root has the origin before it. *)
Theorem extract_video_cards_keys (World : Type)
  (cards_of : World -> result (list card)) page batch :
  extract_video_cards World cards_of page = Ok batch ->
  NoDup (dict_keys batch) /\ Forall resolved (dict_keys batch).
Proof.
  intros H. split.
  - eapply extract_video_cards_nodup; exact H.
  - eapply extract_video_cards_resolved; exact H.
Qed.

Lemma extract_video_cards_keys_witness :
  Forall resolved
    [py "https://www.youtube.com/watch?v=a"; py "https://youtu.be/b"].
Proof.
  apply (extract_video_cards_keys script script_cards
           [[video "/watch?v=a" "1K views";
             video "https://youtu.be/b" "7 views";
             video "/watch?v=a" "5K views"]]
           [(py "https://www.youtube.com/watch?v=a", 1000);
            (py "https://youtu.be/b", 7)]).
  vm_compute. reflexivity.
Defined.

Lemma card_views_raises c e : card_views c = Raise e -> e = OverflowError.
Proof.
  unfold card_views.
  destruct (parse_view_count (primary_text c)) as [vc|e'] eqn:E; simpl;
    [discriminate|].
  intros [= <-]. eapply parse_view_count_raises; exact E.
Qed.

Lemma extract_card_raises results c e :
  extract_card results c = Raise e -> e = OverflowError.
Proof.
  rewrite extract_card_by_url.
  destruct (card_url c) as [u|]; [|discriminate].
  destruct (dict_contains u results); [discriminate|].
  destruct (card_views c) as [vc|e'] eqn:E; simpl; [discriminate|].
  intros [= <-]. eapply card_views_raises; exact E.
Qed.

Lemma extract_cards_raises cards :
  forall results e, extract_cards results cards = Raise e -> e = OverflowError.
Proof.
  induction cards as [|c cards IH]; simpl; intros d e H; [discriminate|].
  destruct (extract_card d c) as [d1|e'] eqn:E; simpl in H.
  - eapply IH; exact H.
  - injection H as <-. eapply extract_card_raises; exact E.
Qed.

Lemma extract_video_cards_fails (World : Type)
  (cards_of : World -> result (list card)) page e :
  extract_video_cards World cards_of page = Raise e ->
  cards_of page = Raise e \/
  (exists cards, cards_of page = Ok cards) /\ e = OverflowError.
Proof.
  unfold extract_video_cards.
  destruct (cards_of page) as [cards|e'] eqn:E; simpl.
  - intros H. right. split; [eexists; reflexivity|].
    eapply extract_cards_raises; exact H.
  - intros [= <-]. left; reflexivity.
Qed.

(** X7: a pass fails only if listing the cards failed, with that exception,
    or with the [OverflowError] of the parser on a metadata line; no failed
    read of a link or of a text of a card ends it. *)
Theorem extract_video_cards_raises (World : Type)
  (cards_of : World -> result (list card)) page e :
  extract_video_cards World cards_of page = Raise e ->
  cards_of page = Raise e \/
  (exists cards, cards_of page = Ok cards) /\ e = OverflowError.
Proof. apply extract_video_cards_fails. Qed.

Lemma extract_video_cards_raises_witness :
  script_cards
    [[{| href := Ok (Some (py "/watch?v=a"));
         meta_spans := Ok [repeat "9"%char 400 ++ py " views"];
         spans := Raise PlaywrightError |}]] = Raise OverflowError
  \/ (exists cards,
        script_cards
          [[{| href := Ok (Some (py "/watch?v=a"));
               meta_spans := Ok [repeat "9"%char 400 ++ py " views"];
               spans := Raise PlaywrightError |}]] = Ok cards)
     /\ OverflowError = OverflowError.
Proof.
  apply (extract_video_cards_raises script script_cards).
  vm_compute. reflexivity.
Defined.

(** A card whose reads all fail is passed over. *)
Lemma extract_card_all_reads_fail results :
  extract_card results
    {| href := Raise PlaywrightError; meta_spans := Raise PlaywrightError;
       spans := Raise PlaywrightError |} = Ok results.
Proof. reflexivity. Qed.

Lemma extract_card_appends results c results' :
  extract_card results c = Ok results' ->
  results' = results \/ exists url v, results' = results ++ [(url, v)].
Proof.
  rewrite extract_card_by_url.
  destruct (card_url c) as [u|]; [|intros [= <-]; left; reflexivity].
  destruct (dict_contains u results) eqn:Hc;
    [intros [= <-]; left; reflexivity|].
  destruct (card_views c) as [[v|]|e]; simpl; try discriminate;
    intros [= <-]; [|left; reflexivity].
  right. exists u, v. apply dict_set_absent, Hc.
Qed.

(** X8: a pass only adds entries, after the ones it started with and in the
    order of the cards, and at most one per card. *)
Theorem extract_cards_appends cards :
  forall results results',
    extract_cards results cards = Ok results' ->
    prefix_of results results' /\
    (List.length results' <= List.length results + List.length cards)%nat.
Proof.
  induction cards as [|c cards IH]; simpl; intros d d' H.
  - injection H as <-. split; [exists []; rewrite app_nil_r; reflexivity|lia].
  - destruct (extract_card d c) as [d1|e] eqn:E; simpl in H; [|discriminate].
    destruct (IH _ _ H) as [[rest ->] Hlen].
    destruct (extract_card_appends _ _ _ E) as [->|[u [v ->]]].
    + split; [exists rest; reflexivity | lia].
    + split.
      * exists ((u, v) :: rest). rewrite <- app_assoc. reflexivity.
      * rewrite !length_app in *. simpl in *. lia.
Qed.

Lemma extract_cards_appends_witness :
  prefix_of [(py "https://youtu.be/z", 5)]
    [(py "https://youtu.be/z", 5);
     (py "https://www.youtube.com/watch?v=a", 1000)].
Proof.
  apply (extract_cards_appends
           [video "/watch?v=a" "1K views"; video "https://youtu.be/z" "8 views"]
           [(py "https://youtu.be/z", 5)]).
  vm_compute. reflexivity.
Defined.

(** ** The merge of a batch *)

Lemma dict_setdefault_get k v d k0 :
  dict_get k0 (dict_setdefault k v d) =
  match dict_get k0 d with
  | Some v0 => Some v0
  | None => if str_eqb k k0 then Some v else None
  end.
Proof.
  unfold dict_setdefault. destruct (dict_contains k d) eqn:Hc.
  - destruct (dict_get k0 d) eqn:Eg; [reflexivity|].
    destruct (str_eqb k k0) eqn:Ek; [|reflexivity].
    apply str_eqb_eq in Ek. subst k0.
    unfold dict_contains in Hc. rewrite Eg in Hc. discriminate.
  - apply dict_get_set_new, Hc.
Qed.

Lemma merge_get batch :
  forall all_results url,
    dict_get url (merge all_results batch) =
    match dict_get url all_results with
    | Some v => Some v
    | None => dict_get url batch
    end.
Proof.
  unfold merge.
  induction batch as [|[k v] batch IH]; intros d url; simpl.
  - destruct (dict_get url d); reflexivity.
  - rewrite IH, dict_setdefault_get.
    destruct (dict_get url d); [reflexivity|].
    destruct (str_eqb k url); reflexivity.
Qed.

Lemma dict_setdefault_known k v d :
  In k (dict_keys d) -> dict_setdefault k v d = d.
Proof.
  intros H. unfold dict_setdefault.
  apply dict_contains_keys in H. rewrite H. reflexivity.
Qed.

Lemma merge_known batch :
  forall d, Forall (fun k => In k (dict_keys d)) (dict_keys batch) ->
            merge d batch = d.
Proof.
  unfold merge.
  induction batch as [|[k v] batch IH]; intros d H; simpl; [reflexivity|].
  inversion H; subst. simpl in *.
  rewrite dict_setdefault_known by assumption. apply IH. assumption.
Qed.

Lemma merge_keys batch :
  forall d k,
    In k (dict_keys (merge d batch)) <->
    In k (dict_keys d) \/ In k (dict_keys batch).
Proof.
  intros d k. rewrite <- !dict_contains_keys. unfold dict_contains.
  rewrite merge_get.
  destruct (dict_get k d); destruct (dict_get k batch);
    intuition congruence.
Qed.

(** X9: a lookup in the merged result: the value the result set had, else
    the first value the batch has for the URL. *)
Theorem merge_lookup (all_results batch : dict) (url : str) :
  dict_get url (merge all_results batch) =
  match dict_get url all_results with
  | Some v => Some v
  | None => dict_get url batch
  end.
Proof. apply merge_get. Qed.

(** X10: a batch that brings no new URL leaves the result set as it is, so
    the round gains nothing; and merging a batch a second time changes
    nothing. *)
Theorem merge_nothing_new all_results batch :
  (Forall (fun k => In k (dict_keys all_results)) (dict_keys batch) ->
   merge all_results batch = all_results
   /\ dict_len (merge all_results batch) - dict_len all_results = 0)
  /\ merge (merge all_results batch) batch = merge all_results batch.
Proof.
  split.
  - intros H. rewrite (merge_known _ _ H). split; [reflexivity | lia].
  - apply merge_known. apply Forall_forall. intros k Hk.
    apply merge_keys. right; exact Hk.
Qed.

Lemma merge_nothing_new_witness :
  merge [(py "a", 1); (py "b", 2)] [(py "b", 7); (py "a", 9)]
  = [(py "a", 1); (py "b", 2)].
Proof.
  destruct (merge_nothing_new [(py "a", 1); (py "b", 2)]
              [(py "b", 7); (py "a", 9)]) as [H _].
  apply H.
  apply Forall_cons; [simpl; auto|].
  apply Forall_cons; [simpl; auto | apply Forall_nil].
Defined.

Lemma dict_setdefault_grows k v d :
  prefix_of d (dict_setdefault k v d)
  /\ (NoDup (dict_keys d) -> NoDup (dict_keys (dict_setdefault k v d))).
Proof.
  unfold dict_setdefault. destruct (dict_contains k d) eqn:Hc.
  - split; [exists []; rewrite app_nil_r; reflexivity | auto].
  - split.
    + exists [(k, v)]. apply dict_set_absent, Hc.
    + apply dict_set_absent_nodup, Hc.
Qed.

Lemma merge_grows batch :
  forall d,
    prefix_of d (merge d batch)
    /\ (NoDup (dict_keys d) -> NoDup (dict_keys (merge d batch))).
Proof.
  unfold merge.
  induction batch as [|[k v] batch IH]; intros d; simpl.
  - split; [exists []; rewrite app_nil_r; reflexivity | auto].
  - destruct (dict_setdefault_grows k v d) as [[r1 E1] N1].
    destruct (IH (dict_setdefault k v d)) as [[r2 E2] N2].
    split.
    + exists (r1 ++ r2). rewrite E2, E1 at 1. rewrite <- app_assoc.
      reflexivity.
    + auto.
Qed.

(** X11: the merge keeps the result set as the head of the new one, in its
    order, keeps the keys pairwise different, and the keys afterwards are
    those of the result set and those of the batch. *)
Theorem merge_extends all_results batch :
  prefix_of all_results (merge all_results batch)
  /\ (NoDup (dict_keys all_results) ->
      NoDup (dict_keys (merge all_results batch)))
  /\ (forall url,
        In url (dict_keys (merge all_results batch)) <->
        In url (dict_keys all_results) \/ In url (dict_keys batch))
  /\ dict_len all_results <= dict_len (merge all_results batch).
Proof.
  destruct (merge_grows batch all_results) as [Hp Hn].
  split; [exact Hp|]. split; [exact Hn|]. split; [apply merge_keys|].
  destruct Hp as [rest E]. unfold dict_len. rewrite E.
  rewrite length_app. lia.
Qed.

Lemma merge_extends_witness :
  NoDup (dict_keys (merge [(py "a", 1)] [(py "b", 7); (py "a", 9)])).
Proof.
  apply (merge_extends [(py "a", 1)] [(py "b", 7); (py "a", 9)]).
  repeat constructor; simpl; tauto.
Defined.

(** ** More on the loop *)

Lemma merge_resolved d batch :
  Forall resolved (dict_keys d) -> Forall resolved (dict_keys batch) ->
  Forall resolved (dict_keys (merge d batch)).
Proof.
  intros Hd Hb. apply Forall_forall. intros k Hk.
  apply merge_keys in Hk. rewrite Forall_forall in Hd, Hb.
  destruct Hk; auto.
Qed.

Lemma leading_zeros_bounds gs :
  0 <= leading_zeros gs <= Z.of_nat (List.length gs).
Proof.
  induction gs as [|g gs IH]; simpl List.length; cbn [leading_zeros];
    [lia|].
  destruct (g =? 0); lia.
Qed.

Lemma streak_bounds gs : 0 <= streak gs <= Z.of_nat (List.length gs).
Proof.
  unfold streak. rewrite <- length_rev. apply leading_zeros_bounds.
Qed.

Section LoopMore.

Variable World : Type.
Variable Pause : Type.
Variable cards_of : World -> result (list card).
Variable scroll_to_bottom : World -> result World.
Variable sleep : Pause -> World -> result World.
Variable max_scrolls : Z.
Variable scroll_pause : Pause.
Variable stable_rounds : Z.

Let extract := extract_video_cards World cards_of.
Let loop := rounds World Pause cards_of scroll_to_bottom sleep max_scrolls
              scroll_pause stable_rounds.
Let collect := scroll_and_collect World Pause cards_of scroll_to_bottom
                 sleep max_scrolls scroll_pause stable_rounds.

Lemma loop_S fuel n all_results stable page :
  loop (S fuel) n all_results stable page =
  match extract page with
  | Raise e => ([EvExtract], Raise e)
  | Ok batch =>
      let merged := merge all_results batch in
      let gained := dict_len merged - dict_len all_results in
      let stable' := step_stable stable gained in
      let pr := EvPrint (n + 1) max_scrolls (dict_len merged) gained stable'
                        stable_rounds in
      if stable_rounds <=? stable'
      then ([EvExtract; pr], Ok merged)
      else
        match scroll_to_bottom page with
        | Raise e => ([EvExtract; pr; EvScroll], Raise e)
        | Ok page1 =>
            match sleep scroll_pause page1 with
            | Raise e => ([EvExtract; pr; EvScroll; EvSleep], Raise e)
            | Ok page2 =>
                (EvExtract :: pr :: EvScroll :: EvSleep
                   :: fst (loop fuel (n + 1) merged stable' page2),
                 snd (loop fuel (n + 1) merged stable' page2))
            end
        end
  end.
Proof. apply rounds_S. Qed.

(** The result of the loop, from any state it can be in. *)
Lemma loop_result fuel :
  forall n all_results stable page final,
    snd (loop fuel n all_results stable page) = Ok final ->
    prefix_of all_results final
    /\ (NoDup (dict_keys all_results) -> NoDup (dict_keys final))
    /\ (Forall resolved (dict_keys all_results) ->
        Forall resolved (dict_keys final)).
Proof.
  induction fuel as [|fuel IH]; intros n d st w final H.
  - unfold loop in H; simpl in H. injection H as <-.
    split; [exists []; rewrite app_nil_r; reflexivity | auto].
  - rewrite loop_S in H.
    destruct (extract w) as [batch|e] eqn:Eb; [|discriminate].
    cbv zeta in H.
    destruct (merge_grows batch d) as [[r1 E1] N1].
    pose proof (extract_video_cards_resolved _ _ _ _ Eb) as Rb.
    assert (Hhere : prefix_of d (merge d batch)
              /\ (NoDup (dict_keys d) -> NoDup (dict_keys (merge d batch)))
              /\ (Forall resolved (dict_keys d) ->
                  Forall resolved (dict_keys (merge d batch)))).
    { split; [exists r1; exact E1|]. split; [exact N1|].
      intros Hd. apply merge_resolved; assumption. }
    destruct (stable_rounds <=? _); [injection H as <-; exact Hhere|].
    destruct (scroll_to_bottom w) as [w1|e]; [|discriminate].
    destruct (sleep scroll_pause w1) as [w2|e]; [|discriminate].
    simpl in H. destruct (IH _ _ _ _ _ H) as [[r2 E2] [N2 R2]].
    destruct Hhere as [_ [N3 R3]].
    split; [|split; auto].
    exists (r1 ++ r2). rewrite E2, E1. rewrite <- app_assoc. reflexivity.
Qed.

(** X12: the result set that the loop returns has pairwise different URLs,
    none empty and none starting with "/". *)
Theorem collect_result_keys page final :
  snd (collect page) = Ok final ->
  NoDup (dict_keys final) /\ Forall resolved (dict_keys final).
Proof.
  intros H. destruct (loop_result _ _ _ _ _ _ H) as [_ [N R]].
  split; [apply N | apply R]; constructor.
Qed.

(** X13: once an entry is in the result set it stays, at its place: the
    result set at the start of any round is the head of the one returned. *)
Theorem loop_result_extends fuel n all_results stable page final :
  snd (loop fuel n all_results stable page) = Ok final ->
  prefix_of all_results final.
Proof. intros H. apply (loop_result _ _ _ _ _ _ H). Qed.

(** The events of the loop, from any state it can be in. *)
Lemma loop_events fuel :
  forall n all_results stable page,
    let t := fst (loop fuel n all_results stable page) in
    let o := snd (loop fuel n all_results stable page) in
    n_sleeps t <= n_scrolls t <= n_rounds t
    /\ Forall (fun g => 0 <= g) (gains t)
    /\ filter is_print t =
       progress_lines max_scrolls stable_rounds n (dict_len all_results)
         stable (gains t)
    /\ (forall final, o = Ok final ->
          n_sleeps t = n_scrolls t /\ n_rounds t <= n_scrolls t + 1)
    /\ (forall e, o = Raise e ->
          (exists w, cards_of w = Raise e)
          \/ (exists w, scroll_to_bottom w = Raise e)
          \/ (exists w, sleep scroll_pause w = Raise e)
          \/ e = OverflowError).
Proof.
  induction fuel as [|fuel IH]; intros n d st w.
  - unfold loop; simpl. unfold n_sleeps, n_scrolls, n_rounds; simpl.
    split; [lia|]. split; [constructor|]. split; [reflexivity|].
    split; [intros; lia | intros; discriminate].
  - rewrite loop_S.
    destruct (extract w) as [batch|e] eqn:Eb.
    2:{ simpl. unfold n_sleeps, n_scrolls, n_rounds; simpl.
        split; [lia|]. split; [constructor|]. split; [reflexivity|].
        split; [intros; discriminate|]. intros e' [= <-].
        destruct (extract_video_cards_fails _ _ _ _ Eb) as [Hc|[_ ->]].
        - left. exists w. exact Hc.
        - right; right; right; reflexivity. }
    cbv zeta.
    assert (Hg : 0 <= dict_len (merge d batch) - dict_len d).
    { destruct (merge_grows batch d) as [[r1 E1] _]. unfold dict_len.
      rewrite E1, length_app. lia. }
    set (g := dict_len (merge d batch) - dict_len d) in *.
    assert (Hsz : dict_len (merge d batch) = dict_len d + g)
      by (unfold g; lia).
    destruct (stable_rounds <=? step_stable st g).
    { simpl. unfold n_sleeps, n_scrolls, n_rounds; simpl.
      split; [lia|]. split; [repeat constructor; exact Hg|].
      split; [rewrite Hsz; reflexivity|].
      split; [intros; lia | intros; discriminate]. }
    destruct (scroll_to_bottom w) as [w1|e] eqn:Es.
    2:{ simpl. unfold n_sleeps, n_scrolls, n_rounds; simpl.
        split; [lia|]. split; [repeat constructor; exact Hg|].
        split; [rewrite Hsz; reflexivity|].
        split; [intros; discriminate|]. intros e' [= <-].
        right; left. exists w. exact Es. }
    destruct (sleep scroll_pause w1) as [w2|e] eqn:El.
    2:{ simpl. unfold n_sleeps, n_scrolls, n_rounds; simpl.
        split; [lia|]. split; [repeat constructor; exact Hg|].
        split; [rewrite Hsz; reflexivity|].
        split; [intros; discriminate|]. intros e' [= <-].
        right; right; left. exists w1. exact El. }
    specialize (IH (n + 1) (merge d batch) (step_stable st g) w2).
    cbv zeta in IH.
    destruct (loop fuel (n + 1) (merge d batch) (step_stable st g) w2)
      as [t o].
    simpl fst in *; simpl snd in *.
    destruct IH as [I1 [I2 [I3 [I4 I5]]]].
    unfold n_sleeps, n_scrolls, n_rounds in *.
    cbn [filter is_sleep is_scroll is_extract is_print gains
         progress_lines List.length].
    split; [lia|]. split; [constructor; assumption|].
    split; [rewrite I3, Hsz; reflexivity|].
    split; [|exact I5].
    intros final Ho. specialize (I4 final Ho). lia.
Qed.


(** X15: the loop raises nothing of its own: a run that fails does so with
    the exception of a listing of the cards, of a scroll or of a sleep, or
    with the [OverflowError] of the parser. *)
Theorem collect_raises page e :
  snd (collect page) = Raise e ->
  (exists w, cards_of w = Raise e)
  \/ (exists w, scroll_to_bottom w = Raise e)
  \/ (exists w, sleep scroll_pause w = Raise e)
  \/ e = OverflowError.
Proof.
  pose proof (loop_events (Z.to_nat max_scrolls) 0 [] 0 page)
    as [_ [_ [_ [_ H5]]]].
  apply H5.
Qed.

(** X16: the progress lines follow from the gains of the rounds: line [i]
    shows round [i], the bound, the entries so far, the gain, the streak
    and the threshold; no gain is negative and the result set returned has
    as many entries as the gains add up to. *)
Theorem collect_progress page :
  let t := fst (collect page) in
  filter is_print t =
  progress_lines max_scrolls stable_rounds 0 0 0 (gains t)
  /\ Forall (fun g => 0 <= g) (gains t)
  /\ (forall final, snd (collect page) = Ok final ->
        dict_len final = sum (gains t)).
Proof.
  pose proof (loop_events (Z.to_nat max_scrolls) 0 [] 0 page)
    as [_ [H2 [H3 _]]].
  split; [exact H3|]. split; [exact H2|].
  intros final Ho.
  pose proof (collect_run_ok World Pause cards_of scroll_to_bottom sleep
                max_scrolls scroll_pause stable_rounds page) as R.
  rewrite (ro_size _ _ _ _ _ _ R final Ho). reflexivity.
Qed.

(** X17: a threshold above the bound is never reached: a run that returns
    then went through all [max_scrolls] rounds and scrolled after each. *)
Theorem collect_exhausts page final :
  max_scrolls < stable_rounds ->
  snd (collect page) = Ok final ->
  n_rounds (fst (collect page)) = Z.max 0 max_scrolls
  /\ n_scrolls (fst (collect page)) = Z.max 0 max_scrolls.
Proof.
  intros Hthr Ho.
  pose proof (collect_run_ok World Pause cards_of scroll_to_bottom sleep
                max_scrolls scroll_pause stable_rounds page) as R.
  destruct R as [R St Bf Pr Ea Br Ex Sz Sp].
  unfold collect in *.
  set (t := fst (scroll_and_collect World Pause cards_of scroll_to_bottom
                   sleep max_scrolls scroll_pause stable_rounds page)) in *.
  specialize (Pr final Ho).
  assert (Hlast : last (stables t) (stable_rounds - 1) < stable_rounds).
  { rewrite St.
    assert (Hgs : gains t = [] \/ gains t <> [])
      by (destruct (gains t); [left; reflexivity | right; discriminate]).
    destruct Hgs as [Hgs|Hgs].
    - rewrite Hgs. simpl. lia.
    - rewrite last_scan_stable by exact Hgs.
      pose proof (streak_bounds (gains t)) as Hb.
      assert (0 < List.length (gains t))%nat
        by (destruct (gains t); [congruence | simpl; lia]).
      lia. }
  destruct (Ex final Ho Hlast) as [H1 H2]. lia.
Qed.

End LoopMore.

Lemma collect_result_keys_witness :
  NoDup (dict_keys [(py "https://www.youtube.com/watch?v=a", 1000);
                    (py "https://www.youtube.com/watch?v=b", 2000)]).
Proof.
  apply (collect_result_keys script unit script_cards script_scroll
           script_sleep 40 tt 3 two_rounds_of_news).
  vm_compute. reflexivity.
Defined.

Lemma loop_result_extends_witness :
  prefix_of [(py "https://youtu.be/z", 5)]
    [(py "https://youtu.be/z", 5);
     (py "https://www.youtube.com/watch?v=a", 1000);
     (py "https://www.youtube.com/watch?v=b", 2000)].
Proof.
  apply (loop_result_extends script unit script_cards script_scroll
           script_sleep 40 tt 3 4 1 [(py "https://youtu.be/z", 5)] 0
           two_rounds_of_news).
  vm_compute. reflexivity.
Defined.


Lemma collect_raises_witness :
  (exists w, script_cards w = Raise OverflowError)
  \/ (exists w, script_scroll w = Raise OverflowError)
  \/ (exists w, script_sleep tt w = Raise OverflowError)
  \/ OverflowError = OverflowError.
Proof.
  apply (collect_raises script unit script_cards script_scroll script_sleep
           40 tt 3 overflowing_page).
  vm_compute. reflexivity.
Defined.

Lemma collect_progress_witness :
  dict_len [(py "https://www.youtube.com/watch?v=a", 1000);
            (py "https://www.youtube.com/watch?v=b", 2000)]
  = sum (gains (fst (collect_script 40 tt 3 two_rounds_of_news))).
Proof.
  pose proof (collect_progress script unit script_cards script_scroll
                script_sleep 40 tt 3 two_rounds_of_news) as [_ [_ H]].
  apply H. vm_compute. reflexivity.
Defined.

Lemma collect_exhausts_witness :
  n_rounds (fst (collect_script 4 tt 5 two_rounds_of_news)) = Z.max 0 4
  /\ n_scrolls (fst (collect_script 4 tt 5 two_rounds_of_news)) = Z.max 0 4.
Proof.
  apply (collect_exhausts script unit script_cards script_scroll
           script_sleep 4 tt 5 two_rounds_of_news
           [(py "https://www.youtube.com/watch?v=a", 1000);
            (py "https://www.youtube.com/watch?v=b", 2000)]).
  - lia.
  - vm_compute. reflexivity.
Defined.

(** ** More on the summary *)

Lemma insert_desc_perm x l : Permutation (insert_desc x l) (x :: l).
Proof.
  induction l as [|y l IH]; simpl; [apply Permutation_refl|].
  destruct (snd x <? snd y); [|apply Permutation_refl].
  apply perm_trans with (y :: x :: l);
    [apply perm_skip; exact IH | apply perm_swap].
Qed.

Lemma sorted_desc_perm l : Permutation (sorted_desc l) l.
Proof.
  induction l as [|x l IH]; simpl; [apply perm_nil|].
  apply perm_trans with (x :: sorted_desc l);
    [apply insert_desc_perm | apply perm_skip; exact IH].
Qed.

Lemma non_increasing_app a b :
  non_increasing (a ++ b) ->
  forall x y, In x a -> In y b -> y <= x.
Proof.
  induction a as [|z a IH]; simpl; intros H x y Hx Hy; [contradiction|].
  destruct H as [Hz Ha]. destruct Hx as [<-|Hx].
  - rewrite Forall_forall in Hz. apply Hz, in_or_app. right; exact Hy.
  - eapply IH; eassumption.
Qed.

(** X18: the ranked section lists entries of the result set only, each URL
    at most once, and no entry left out has more views than a listed
    one. *)
Theorem top_sequence_best (all_results : dict) (top : Z) :
  let ranked := top_sequence (summary all_results top) in
  (forall kv, In kv ranked -> In kv all_results)
  /\ (NoDup (dict_keys all_results) -> NoDup (dict_keys ranked))
  /\ (forall kv kv', In kv ranked -> In kv' all_results ->
                     ~ In kv' ranked -> snd kv' <= snd kv).
Proof.
  intros ranked. subst ranked.
  destruct (top_sequence_firstn all_results top) as [k ->].
  pose proof (sorted_desc_perm all_results) as P.
  pose proof (firstn_skipn k (sorted_desc all_results)) as E.
  split; [|split].
  - intros kv H. apply (Permutation_in _ P).
    rewrite <- E. apply in_or_app. left; exact H.
  - intros Hn.
    assert (Hs : NoDup (dict_keys (sorted_desc all_results))).
    { unfold dict_keys. eapply Permutation_NoDup; [|exact Hn].
      apply Permutation_map, Permutation_sym, P. }
    rewrite <- E in Hs. unfold dict_keys in *. rewrite map_app in Hs.
    eapply NoDup_app_remove_r. exact Hs.
  - intros kv kv' H H' Hnot.
    assert (Hin : In kv' (skipn k (sorted_desc all_results))).
    { apply Permutation_sym in P. apply (Permutation_in _ P) in H'.
      rewrite <- E in H'. apply in_app_or in H'. tauto. }
    pose proof (sorted_desc_sorted all_results) as S.
    rewrite <- E, map_app in S.
    apply (non_increasing_app _ _ S); apply in_map; assumption.
Qed.

Lemma top_sequence_best_witness :
  NoDup (dict_keys
           (top_sequence
              (summary [(py "A", 1000); (py "B", 2000); (py "C", 3000)] 2))).
Proof.
  apply (top_sequence_best [(py "A", 1000); (py "B", 2000); (py "C", 3000)] 2).
  repeat constructor; simpl; intuition discriminate.
Defined.

(** X19: when the ranked section is printed and when not: it is left out
    exactly when [top] is 0 or nothing was collected; a [top] of the count
    or more lists every entry; a negative [top] prints the section without
    the last [- top] entries of the order. *)
Theorem ranked_section_edges (all_results : dict) (top : Z) :
  (top_items (summary all_results top) = None <->
   top = 0 \/ all_results = [])
  /\ (count (summary all_results top) <= top -> all_results <> [] ->
      top_items (summary all_results top) = Some (sorted_desc all_results))
  /\ (top < 0 -> all_results <> [] ->
      top_items (summary all_results top) =
      Some (firstn (List.length all_results - Z.to_nat (- top))
                   (sorted_desc all_results))).
Proof.
  unfold summary; simpl.
  assert (Hlen : all_results <> [] -> 0 < dict_len all_results).
  { unfold dict_len. destruct all_results; [congruence | simpl; lia]. }
  split; [|split].
  - destruct (Z.eqb_spec top 0) as [->|Hne]; simpl.
    + split; auto.
    + destruct all_results as [|kv d].
      * simpl. split; auto.
      * replace (0 <? dict_len (kv :: d)) with true
          by (symmetry; apply Z.ltb_lt, Hlen; discriminate).
        split; [discriminate | intros [?|?]; [lia | discriminate]].
  - intros Hc Hne. specialize (Hlen Hne).
    replace (top =? 0) with false by (symmetry; apply Z.eqb_neq; lia).
    replace (0 <? dict_len all_results) with true
      by (symmetry; apply Z.ltb_lt; exact Hlen).
    simpl. f_equal. rewrite slice_to_nonneg by lia.
    apply firstn_all2. rewrite sorted_desc_length.
    unfold dict_len in Hc. lia.
  - intros Hneg Hne. specialize (Hlen Hne).
    replace (top =? 0) with false by (symmetry; apply Z.eqb_neq; lia).
    replace (0 <? dict_len all_results) with true
      by (symmetry; apply Z.ltb_lt; exact Hlen).
    simpl. f_equal. unfold slice_to.
    replace (0 <=? top) with false by (symmetry; apply Z.leb_gt; lia).
    rewrite sorted_desc_length. reflexivity.
Qed.

Lemma ranked_section_edges_witness :
  top_items (summary [(py "A", 1000); (py "B", 2000)] (-5)) = Some [].
Proof.
  pose proof (ranked_section_edges [(py "A", 1000); (py "B", 2000)] (-5))
    as [_ [_ H]].
  rewrite H; [reflexivity | lia | discriminate].
Defined.

(** ** The search URL *)

Lemma hex_digits_safe c :
  always_safe (hex_digit (nat_of_ascii c / 16)) = true
  /\ always_safe (hex_digit (nat_of_ascii c mod 16)) = true.
Proof.
  destruct c as [[] [] [] [] [] [] [] []]; vm_compute; split; reflexivity.
Qed.

Lemma quote_byte_chars safe c :
  Forall (fun x => always_safe x = true \/ x = "%"%char \/ safe x = true)
         (quote_byte safe c).
Proof.
  unfold quote_byte. destruct (always_safe c || safe c) eqn:E.
  - constructor; [|constructor].
    apply orb_prop in E. destruct E as [E|E]; auto.
  - destruct (hex_digits_safe c) as [H1 H2].
    apply Forall_cons; [right; left; reflexivity|].
    apply Forall_cons; [left; exact H1|].
    apply Forall_cons; [left; exact H2 | apply Forall_nil].
Qed.

Lemma quote_chars safe s :
  Forall (fun x => always_safe x = true \/ x = "%"%char \/ safe x = true)
         (quote safe s).
Proof.
  unfold quote. induction s as [|c s IH]; simpl; [constructor|].
  apply Forall_app. split; [apply quote_byte_chars | exact IH].
Qed.

Lemma quote_plus_chars s : forallb url_char (quote_plus s) = true.
Proof.
  apply forallb_forall. unfold quote_plus.
  destruct (existsb is_blank s); intros x Hx.
  - unfold str_replace_char in Hx. apply in_map_iff in Hx.
    destruct Hx as [y [<- Hy]].
    pose proof (quote_chars is_blank s) as Hq.
    rewrite Forall_forall in Hq. specialize (Hq y Hy).
    destruct (Ascii.eqb y " ") eqn:Ey; [reflexivity|].
    destruct Hq as [Hq|[->|Hq]].
    + unfold url_char. rewrite Hq. reflexivity.
    + reflexivity.
    + unfold is_blank in Hq. congruence.
  - pose proof (quote_chars (fun _ => false) s) as Hq.
    rewrite Forall_forall in Hq.
    destruct (Hq x Hx) as [Hs|[->|Hs]]; [|reflexivity|discriminate].
    unfold url_char. rewrite Hs. reflexivity.
Qed.

Lemma unquote_byte_plain c rest :
  unquote_plus (quote_byte (fun _ => false) c ++ rest)
  = c :: unquote_plus rest.
Proof.
  destruct c as [[] [] [] [] [] [] [] []]; reflexivity.
Qed.

Lemma unquote_byte_blank c rest :
  unquote_plus (str_replace_char " " "+" (quote_byte is_blank c) ++ rest)
  = c :: unquote_plus rest.
Proof.
  destruct c as [[] [] [] [] [] [] [] []]; reflexivity.
Qed.

Lemma unquote_quote_plus s : unquote_plus (quote_plus s) = s.
Proof.
  unfold quote_plus. destruct (existsb is_blank s).
  - unfold quote, str_replace_char.
    induction s as [|c s IH]; [reflexivity|].
    cbn [flat_map]. rewrite map_app.
    rewrite (unquote_byte_blank c). rewrite IH. reflexivity.
  - unfold quote.
    induction s as [|c s IH]; [reflexivity|].
    cbn [flat_map]. rewrite unquote_byte_plain, IH. reflexivity.
Qed.

(** X20: the URL opened is the fixed address of the search followed by the
    encoded query, in which only letters, digits and the characters
    [_ . - ~ + %] occur: no space, [&], [#], [=] or [?] of the query gets
    into the URL as it is. *)
Theorem search_url_chars (query : str) :
  exists encoded,
    search_url query
    = py "https://www.youtube.com/results?search_query=" ++ encoded
    /\ forallb url_char encoded = true
    /\ (List.length (str_strip query) <= List.length encoded
        <= 3 * List.length (str_strip query))%nat.
Proof.
  exists (quote_plus (str_strip query)).
  split; [reflexivity|]. split; [apply quote_plus_chars|].
  generalize (str_strip query). intros s. unfold quote_plus.
  assert (Hq : forall safe,
             (List.length s <= List.length (quote safe s)
              <= 3 * List.length s)%nat).
  { intros safe. unfold quote. induction s as [|c s IH]; simpl; [lia|].
    rewrite length_app. unfold quote_byte at 1 3.
    destruct (always_safe c || safe c); simpl; lia. }
  destruct (existsb is_blank s).
  - unfold str_replace_char. rewrite length_map. apply Hq.
  - apply Hq.
Qed.

(** X21: the encoding loses nothing: two queries open the same URL only if
    they are the same once stripped. *)
Theorem search_url_injective (query query' : str) :
  search_url query = search_url query' ->
  str_strip query = str_strip query'.
Proof.
  unfold search_url. intros H. apply app_inv_head in H.
  rewrite <- (unquote_quote_plus (str_strip query)), H.
  apply unquote_quote_plus.
Qed.

Lemma search_url_injective_witness :
  str_strip (py " cats & dogs ") = str_strip (py "cats & dogs").
Proof.
  apply (search_url_injective (py " cats & dogs ") (py "cats & dogs")).
  vm_compute. reflexivity.
Defined.

(** ** When the parser cannot overflow *)

Lemma div_lt_iff a b c : 0 < b -> (a / b < c <-> a < b * c).
Proof.
  intros Hb. split.
  - intros H. pose proof (Z.div_mod a b ltac:(lia)) as E.
    pose proof (Z.mod_pos_bound a b Hb). nia.
  - apply Z.div_lt_upper_bound. exact Hb.
Qed.

(** The quotient of [p/q] by [2^e], as [scaled] computes it, is below [N]
    exactly when [p/q < N * 2^e]. *)
Lemma scaled_lt p q e N :
  0 < q ->
  (fst (fst (scaled p q e)) < N <->
   p * 2 ^ Z.max 0 (- e) < N * (q * 2 ^ Z.max 0 e)).
Proof.
  intros Hq. unfold scaled. destruct (0 <=? e) eqn:E.
  - apply Z.leb_le in E. rewrite div_eucl_div_mod. simpl fst.
    rewrite Z.max_l, Z.max_r by lia. rewrite Z.pow_0_r, Z.mul_1_r.
    assert (0 < 2 ^ e) by (apply Z.pow_pos_nonneg; lia).
    rewrite div_lt_iff by nia. split; intros; nia.
  - apply Z.leb_gt in E. rewrite div_eucl_div_mod. simpl fst.
    rewrite Z.max_r, Z.max_l by lia. rewrite Z.pow_0_r, Z.mul_1_r.
    rewrite div_lt_iff by lia. split; intros; nia.
Qed.

Lemma pow2_max_shift e :
  2 ^ Z.max 0 (- (e - 1)) * 2 ^ Z.max 0 e
  = 2 * (2 ^ Z.max 0 (- e) * 2 ^ Z.max 0 (e - 1)).
Proof.
  destruct (Z.le_gt_cases 1 e).
  - rewrite (Z.max_l 0 (- (e - 1))), (Z.max_r 0 e), (Z.max_l 0 (- e)),
      (Z.max_r 0 (e - 1)) by lia.
    replace (2 ^ e) with (2 ^ (1 + (e - 1))) by (f_equal; lia).
    rewrite Z.pow_add_r by lia. rewrite !Z.pow_0_r.
    change (2 ^ 1) with 2. lia.
  - rewrite (Z.max_r 0 (- (e - 1))), (Z.max_l 0 e), (Z.max_r 0 (- e)),
      (Z.max_l 0 (e - 1)) by lia.
    replace (- (e - 1)) with (1 + - e) by lia.
    rewrite Z.pow_add_r by lia. rewrite !Z.pow_0_r.
    change (2 ^ 1) with 2. lia.
Qed.

Lemma binade_quotient p q :
  0 < p -> 0 < q -> fst (fst (scaled p q (binade p q))) < 2 ^ 53.
Proof.
  intros Hp Hq.
  pose proof (Z.log2_spec p Hp) as [_ Lp].
  pose proof (Z.log2_spec q Hq) as [Lq _].
  pose proof (Z.log2_nonneg p) as Np. pose proof (Z.log2_nonneg q) as Nq.
  set (lp := Z.log2 p) in *. set (lq := Z.log2 q) in *.
  assert (H0 : fst (fst (scaled p q (lp - lq - 52))) < 2 ^ 53).
  { apply scaled_lt; [exact Hq|].
    set (e0 := lp - lq - 52).
    assert (Hpow : 2 ^ Z.succ lp * 2 ^ Z.max 0 (- e0)
                   = 2 ^ 53 * (2 ^ lq * 2 ^ Z.max 0 e0)).
    { rewrite <- !Z.pow_add_r by lia. f_equal. lia. }
    assert (0 < 2 ^ Z.max 0 (- e0)) by (apply Z.pow_pos_nonneg; lia).
    assert (0 < 2 ^ Z.max 0 e0) by (apply Z.pow_pos_nonneg; lia).
    nia. }
  assert (H1 : fst (fst (scaled p q (lp - lq - 52))) < 2 ^ 52 ->
               fst (fst (scaled p q (lp - lq - 52 - 1))) < 2 ^ 53).
  { intros H. apply scaled_lt in H; [|exact Hq]. apply scaled_lt; [exact Hq|].
    set (e0 := lp - lq - 52) in *.
    pose proof (pow2_max_shift e0) as S.
    assert (0 < 2 ^ Z.max 0 (- e0)) by (apply Z.pow_pos_nonneg; lia).
    assert (0 < 2 ^ Z.max 0 e0) by (apply Z.pow_pos_nonneg; lia).
    assert (0 < 2 ^ Z.max 0 (- (e0 - 1))) by (apply Z.pow_pos_nonneg; lia).
    assert (0 < 2 ^ Z.max 0 (e0 - 1)) by (apply Z.pow_pos_nonneg; lia).
    change (2 ^ 53) with (2 * 2 ^ 52).
    nia. }
  unfold binade. fold lp lq.
  set (e1 := if fst (fst (scaled p q (lp - lq - 52))) <? 2 ^ 52
             then lp - lq - 52 - 1 else lp - lq - 52).
  assert (He1 : fst (fst (scaled p q e1)) < 2 ^ 53).
  { unfold e1. destruct (_ <? _) eqn:E; [|exact H0].
    apply Z.ltb_lt in E. apply H1, E. }
  destruct (Z.le_gt_cases emin e1) as [Hc|Hc].
  - rewrite Z.max_r by exact Hc. exact He1.
  - rewrite Z.max_l by lia.
    apply scaled_lt in He1; [|exact Hq]. apply scaled_lt; [exact Hq|].
    unfold emin in *.
    rewrite Z.max_r, Z.max_l in * by lia.
    assert (2 ^ (- -1074) <= 2 ^ (- e1)) by (apply Z.pow_le_mono_r; lia).
    rewrite Z.pow_0_r in *. nia.
Qed.

(** A value whose binary logarithm is at most 1021 above that of the
    divisor rounds to a finite float, with a significand below [2^53]. *)
Lemma round_even_finite p q E :
  0 <= p -> 0 < q -> Z.log2 p - Z.log2 q <= E -> E <= 1021 ->
  exists m e, round_even p q = Finite m e
              /\ 0 <= m < 2 ^ 53 /\ e <= Z.max 0 (E - 51).
Proof.
  intros Hp Hq HE HE'. unfold round_even.
  destruct (p =? 0) eqn:E0.
  { exists 0, 0. split; [reflexivity|]. split; lia. }
  apply Z.eqb_neq in E0. assert (Hpos : 0 < p) by lia.
  pose proof (binade_quotient p q Hpos Hq) as Hlt.
  pose proof (scaled_nonneg p q (binade p q) Hp Hq) as Hge.
  assert (He : binade p q <= Z.max emin (E - 52)).
  { unfold binade. destruct (_ <? _); unfold emin; lia. }
  destruct (scaled p q (binade p q)) as [[m r] d]. simpl in Hlt, Hge.
  set (m' := if (d <? 2 * r) || ((d =? 2 * r) && Z.odd m) then m + 1 else m).
  assert (Hm' : 0 <= m' <= 2 ^ 53) by (unfold m'; destruct (_ || _); lia).
  unfold emin, emax in *.
  destruct (m' =? 2 ^ 53) eqn:E53.
  - replace (971 <? binade p q + 1) with false
      by (symmetry; apply Z.ltb_ge; lia).
    exists (2 ^ 52), (binade p q + 1). split; [reflexivity|].
    split; [split; [apply Z.pow_nonneg; lia | reflexivity] | lia].
  - apply Z.eqb_neq in E53.
    replace (971 <? binade p q) with false
      by (symmetry; apply Z.ltb_ge; lia).
    exists m', (binade p q). split; [reflexivity|]. split; lia.
Qed.

Lemma log2_below a n : 0 <= a < 2 ^ n -> 0 <= n -> Z.log2 a <= n - 1 \/ a = 0.
Proof.
  intros [Ha Hlt] Hn.
  destruct (Z.eq_dec a 0) as [->|Hne]; [right; reflexivity|].
  left. assert (Z.log2 a < n) by (apply Z.log2_lt_pow2; lia). lia.
Qed.

Lemma float_mul_int_finite m e k :
  0 <= m < 2 ^ 53 -> e <= 939 -> 0 < k < 2 ^ 30 ->
  exists m' e', float_mul_int (Finite m e) k = Finite m' e'.
Proof.
  intros [Hm0 Hm] He [Hk0 Hk]. unfold float_mul_int.
  assert (Hmk : 0 <= m * k < 2 ^ 83).
  { change (2 ^ 83) with (2 ^ 53 * 2 ^ 30). nia. }
  destruct (0 <=? e) eqn:E.
  - apply Z.leb_le in E.
    assert (Hp : 0 < 2 ^ e) by (apply Z.pow_pos_nonneg; lia).
    assert (Hb : 0 <= m * k * 2 ^ e < 2 ^ (83 + e)).
    { rewrite Z.pow_add_r by lia. nia. }
    assert (Hl : Z.log2 (m * k * 2 ^ e) - Z.log2 1 <= 1021).
    { change (Z.log2 1) with 0.
      destruct (log2_below _ (83 + e) Hb ltac:(lia)) as [H|H];
        [lia | rewrite H; simpl; lia]. }
    destruct (round_even_finite (m * k * 2 ^ e) 1 1021
                ltac:(lia) ltac:(lia) Hl ltac:(lia)) as [m' [e' [H _]]].
    exists m', e'. exact H.
  - apply Z.leb_gt in E.
    assert (Hp : 0 < 2 ^ (- e)) by (apply Z.pow_pos_nonneg; lia).
    assert (Hl : Z.log2 (m * k) - Z.log2 (2 ^ (- e)) <= 1021).
    { rewrite Z.log2_pow2 by lia.
      destruct (log2_below _ 83 Hmk ltac:(lia)) as [H|H];
        [lia | rewrite H; simpl; lia]. }
    destruct (round_even_finite (m * k) (2 ^ (- e)) 1021
                ltac:(lia) Hp Hl ltac:(lia)) as [m' [e' [H _]]].
    exists m', e'. exact H.
Qed.

Lemma digits_value_below ds :
  forall acc, forallb is_digit ds = true -> 0 <= acc ->
    digits_value acc ds < (acc + 1) * 10 ^ Z.of_nat (List.length ds).
Proof.
  induction ds as [|c ds IH]; intros acc Hd Hacc.
  - simpl. lia.
  - simpl in Hd. apply andb_prop in Hd. destruct Hd as [Hc Hd].
    unfold is_digit in Hc. cbv zeta in Hc.
    apply andb_prop in Hc. destruct Hc as [Hc1 Hc2].
    apply Z.leb_le in Hc1, Hc2.
    cbn [digits_value List.length]. rewrite Nat2Z.inj_succ, Z.pow_succ_r by lia.
    assert (H0 : 0 <= 10 * acc + digit_value c) by (unfold digit_value; lia).
    specialize (IH _ Hd H0).
    assert (0 < 10 ^ Z.of_nat (List.length ds))
      by (apply Z.pow_pos_nonneg; lia).
    unfold digit_value in *. nia.
Qed.

Lemma split_at_dot_length s :
  (List.length (fst (split_at_dot s)) +
   match snd (split_at_dot s) with
   | Some f => List.length f
   | None => 0
   end <= List.length s)%nat.
Proof.
  induction s as [|c s IH]; simpl; [lia|].
  destruct (Ascii.eqb c "."); simpl; [lia|].
  destruct (split_at_dot s) as [a b]. simpl in *. lia.
Qed.

(** The value of a decimal literal is below ten to the number of its
    characters. *)
Lemma decimal_below s p q :
  decimal s = Some (p, q) ->
  0 <= p < 10 ^ Z.of_nat (List.length s) /\ 0 < q.
Proof.
  intros H. destruct (decimal_nonneg _ _ _ H) as [Hp Hq].
  split; [|exact Hq]. split; [exact Hp|].
  pose proof (split_at_dot_length s) as Hl.
  unfold decimal in H. destruct (split_at_dot s) as [ip [fp|]]; simpl in Hl.
  - destruct (all_digits ip) eqn:Ei; [|discriminate].
    destruct (all_digits fp) eqn:Ef; [|discriminate]. simpl in H.
    injection H as <- <-.
    pose proof (digits_value_below (ip ++ fp) 0) as Hb.
    rewrite forallb_app, (all_digits_forallb _ Ei),
      (all_digits_forallb _ Ef) in Hb.
    specialize (Hb eq_refl ltac:(lia)). rewrite length_app in Hb.
    eapply Z.lt_le_trans; [exact Hb|].
    rewrite Z.mul_1_l. apply Z.pow_le_mono_r; lia.
  - destruct (all_digits ip) eqn:Ei; [|discriminate].
    injection H as <- <-.
    pose proof (digits_value_below ip 0 (all_digits_forallb _ Ei)
                  ltac:(lia)) as Hb.
    eapply Z.lt_le_trans; [exact Hb|].
    rewrite Z.mul_1_l. apply Z.pow_le_mono_r; lia.
Qed.

Lemma str_lstrip_length s : (List.length (str_lstrip s) <= List.length s)%nat.
Proof.
  induction s as [|c s IH]; simpl; [lia|].
  destruct (is_space c); simpl; lia.
Qed.

Lemma normalized_length text :
  (List.length (normalized text) <= List.length text)%nat.
Proof.
  unfold normalized, str_remove, str_lower, str_strip, str_rstrip.
  eapply Nat.le_trans; [apply filter_length_le|].
  rewrite length_map, length_rev.
  eapply Nat.le_trans; [apply str_lstrip_length|].
  rewrite length_rev. apply str_lstrip_length.
Qed.

(** The group [num] of a match holds a decimal literal that is a piece of
    the text. *)
Lemma VIEW_RE_search_num_length t m :
  VIEW_RE_search t = Some m ->
  exists tok p q, group "num" m = Some tok /\ decimal tok = Some (p, q)
                  /\ (List.length tok <= List.length t)%nat.
Proof.
  unfold VIEW_RE_search. intros H.
  destruct (re_search_where _ _ _ _ H) as [pre [s' [rest [-> Hin]]]].
  rewrite VIEW_RE_parts in Hin. cbn [re_match] in Hin.
  apply in_flat_map in Hin. destruct Hin as [[g1 s1] [H1 H2]].
  apply in_map_iff in H1. destruct H1 as [[g0 s0] [[= <- <-] H0]].
  destruct (re_match_sound _ _ _ _ _ _ H0) as [c [E Mc]]. simpl in E.
  subst s'. simpl fst in H2; simpl snd in H2.
  rewrite firstn_consumed in H2.
  pose proof (re_match_groups true "num" after_num_re eq_refl _ _ _ _ H2)
    as Hg.
  simpl in Hg.
  destruct (matches_num_decimal c Mc) as [p [q Hd]].
  exists c, p, q. split; [exact Hg|]. split; [exact Hd|].
  rewrite !length_app. lia.
Qed.

(** X22: the parser does not raise on a text of at most 240 characters: the
    [OverflowError] needs a count of some three hundred digits. *)
Theorem parse_view_count_short text :
  (List.length text <= 240)%nat ->
  exists r, parse_view_count text = Ok r.
Proof.
  intros Hlen. rewrite parse_view_count_normalized. unfold parse_normalized.
  destruct (VIEW_RE_search (normalized text)) as [m|] eqn:Hm;
    [|eexists; reflexivity].
  destruct (VIEW_RE_search_num_length _ _ Hm) as [tok [p [q [Hg [Hd Hl]]]]].
  pose proof (normalized_length text) as Hn.
  rewrite Hg. unfold float_of_str. rewrite Hd. simpl bind.
  destruct (decimal_below _ _ _ Hd) as [[Hp0 Hp] Hq].
  assert (Hp2 : p < 2 ^ 960).
  { eapply Z.lt_le_trans; [exact Hp|].
    apply Z.le_trans with (10 ^ 240); [apply Z.pow_le_mono_r; lia|].
    vm_compute. discriminate. }
  assert (Hlog : Z.log2 p - Z.log2 q <= 960).
  { pose proof (Z.log2_nonneg q).
    destruct (log2_below p 960 (conj Hp0 Hp2) ltac:(lia)) as [H1|H1];
      [lia | rewrite H1; simpl; lia]. }
  destruct (round_even_finite p q 960 Hp0 Hq Hlog ltac:(lia))
    as [m1 [e1 [-> [Hm1 He1]]]].
  set (mult := suffix_mult _).
  assert (Hmult : 0 < mult < 2 ^ 30).
  { unfold mult, suffix_mult. repeat destruct (str_eqb _ _);
      split; reflexivity. }
  destruct (float_mul_int_finite m1 e1 mult Hm1 ltac:(lia) Hmult)
    as [m2 [e2 ->]].
  simpl. eexists; reflexivity.
Qed.

Lemma parse_view_count_short_witness :
  exists r, parse_view_count (repeat "9"%char 230 ++ py ".5B views") = Ok r.
Proof.
  apply (parse_view_count_short (repeat "9"%char 230 ++ py ".5B views")).
  rewrite length_app, repeat_length. simpl. lia.
Defined.
